(** * build_notes_index.py: a shallow embedding and its specification

    The script walks the immediate sub-directories of a root, keeps those that
    hold [*.html] entries, derives a key and a display name for each of them,
    builds one note per entry and assembles an index document.

    Python values are modelled as follows.
    - [str] is a list of Unicode code points ([N]); a literal of the source is
      written [py "..."] when it is ASCII and as explicit code points otherwise.
    - The parts of CPython's Unicode database that the script reaches through
      [str.lower], [str.upper], [re.IGNORECASE], [\d] and [int] are fixed on
      ASCII and taken from a [Unicode] record elsewhere, so every statement
      holds for every version of the database.
    - An exception is a value of [exn]; a function that can raise returns
      [res A].
    - The file system is a listing: the entries of the root in the order the
      operating system enumerates them, each with its own entries. An entry
      of a category directory has a name, a kind and a modification time;
      [glob] and [stat] do not look at the kind. Errors of
      the file system itself (a directory that cannot be read, a link to
      nothing) are left out.
    - A modification time is an integer number of microseconds, the value
      [datetime.fromtimestamp] keeps of [st_mtime]; the calendar of the local
      time zone is a parameter of the run ([Host]). [int(mtime.timestamp())]
      is computed on integers, as the float computes it for every time before
      the year 2514.
    - [pathlib] is the POSIX flavour: [glob] compares names with regard to
      case, paths are joined with a slash, and [stem] is that of CPython up
      to 3.13.
    - [int] refuses a numeral of more than 4300 digits, the default limit of
      CPython from 3.11 on. [str] of an integer has the same limit, which the
      integers of the script (a value [int] gave, a suffix, a count) do not
      reach.
    - Loops that Python runs until a condition fails are given fuel that is
      enough: the length of the subject for the loops of the matcher, one
      more than the number of keys in use for the loop that makes a key
      unique. *)

From Stdlib Require Import NArith ZArith Ascii String List Lia.
From Stdlib Require Import DecimalN DecimalPos NArithRing.
From stdpp Require Import base option list gmap sets sorting.

Local Open Scope N_scope.

(** ** Strings *)

Definition char : Type := N.
Definition str : Type := list char.

(** An ASCII literal of the source as a [str]. *)
Definition py (s : string) : str := map N_of_ascii (list_ascii_of_string s).

Definition is_ascii_upper (c : char) : bool := (65 <=? c) && (c <=? 90).
Definition is_ascii_lower (c : char) : bool := (97 <=? c) && (c <=? 122).
Definition is_ascii_digit (c : char) : bool := (48 <=? c) && (c <=? 57).
Definition ascii_tolower (c : char) : char := if is_ascii_upper c then c + 32 else c.
Definition ascii_toupper (c : char) : char := if is_ascii_lower c then c - 32 else c.

Definition str_eqb (s t : str) : bool := bool_decide (s = t).

(** Comparison of two [str]: code point by code point, a proper prefix first. *)
Fixpoint str_ltb (s t : str) : bool :=
  match s, t with
  | _, [] => false
  | [], _ :: _ => true
  | a :: s', b :: t' => (a <? b) || ((a =? b) && str_ltb s' t')
  end.

(** [str.replace(old, new)] for one-character [old] and [new]. *)
Definition replace (old new : char) (s : str) : str :=
  map (fun c => if c =? old then new else c) s.

(** [str.isspace] of one code point ([_PyUnicode_IsWhitespace]). *)
Definition is_space (c : char) : bool :=
  ((0x09 <=? c) && (c <=? 0x0D)) || ((0x1C <=? c) && (c <=? 0x20))
  || (c =? 0x85) || (c =? 0xA0) || (c =? 0x1680)
  || ((0x2000 <=? c) && (c <=? 0x200A))
  || (c =? 0x2028) || (c =? 0x2029) || (c =? 0x202F) || (c =? 0x205F) || (c =? 0x3000).

Fixpoint lstrip (p : char -> bool) (s : str) : str :=
  match s with
  | c :: s' => if p c then lstrip p s' else s
  | [] => []
  end.

Definition rstrip (p : char -> bool) (s : str) : str := rev (lstrip p (rev s)).

(** [s.strip()] is [strip is_space s]; [s.strip("-")] is [strip is_hyphen s]. *)
Definition strip (p : char -> bool) (s : str) : str := rstrip p (lstrip p s).

Definition hyphen : char := 45.
Definition underscore : char := 95.
Definition space : char := 32.
Definition is_hyphen (c : char) : bool := c =? hyphen.

Definition startswith (prefix s : str) : bool :=
  str_eqb (take (length prefix) s) prefix.

Definition endswith (suffix s : str) : bool :=
  str_eqb (drop (length s - length suffix) s) suffix.

(** ** Exceptions *)

Inductive exn : Type :=
| UnicodeEncodeError   (* str.encode on a lone surrogate *)
| ValueError           (* int() on a string that is not a number, or too long *)
| TypeError            (* int(None) *)
| OverflowError        (* datetime.fromtimestamp outside its range; also stands
                          for the ValueError and OSError of that call *)
| OutOfFuel.           (* a loop of the model ran out of fuel: never raised *)

Inductive res (A : Type) : Type :=
| Ok (a : A)
| Raise (e : exn).
Arguments Ok {A} a.
Arguments Raise {A} e.

#[global] Instance res_bind : MBind res := fun A B k m =>
  match m with
  | Ok a => k a
  | Raise e => Raise e
  end.

#[global] Instance res_ret : MRet res := fun A a => Ok a.

Definition of_option {A : Type} (e : exn) (o : option A) : res A :=
  match o with
  | Some a => Ok a
  | None => Raise e
  end.

(** Monadic left fold: a [for] loop whose body can raise. *)
Fixpoint foldM {A S : Type} (body : S -> A -> res S) (s : S) (l : list A) : res S :=
  match l with
  | [] => Ok s
  | a :: l' => s' ← body s a; foldM body s' l'
  end.

(** ** UTF-8 and MD5 *)

Definition bytes : Type := list N.

(** [s.encode("utf-8")]: a surrogate code point cannot be encoded. *)
Definition encode_char (c : char) : res bytes :=
  if c <? 0x80 then Ok [c]
  else if c <? 0x800 then Ok [N.lor 0xC0 (N.shiftr c 6); N.lor 0x80 (N.land c 0x3F)]
  else if (0xD800 <=? c) && (c <=? 0xDFFF) then Raise UnicodeEncodeError
  else if c <? 0x10000 then
    Ok [N.lor 0xE0 (N.shiftr c 12); N.lor 0x80 (N.land (N.shiftr c 6) 0x3F);
        N.lor 0x80 (N.land c 0x3F)]
  else
    Ok [N.lor 0xF0 (N.shiftr c 18); N.lor 0x80 (N.land (N.shiftr c 12) 0x3F);
        N.lor 0x80 (N.land (N.shiftr c 6) 0x3F); N.lor 0x80 (N.land c 0x3F)].

Fixpoint encode_utf8 (s : str) : res bytes :=
  match s with
  | [] => Ok []
  | c :: s' => b ← encode_char c; bs ← encode_utf8 s'; Ok (b ++ bs)
  end.

Module MD5.

Definition w32 (x : N) : N := x mod 2 ^ 32.
Definition add32 (x y : N) : N := w32 (x + y).
Definition not32 (x : N) : N := N.lxor (w32 x) 0xFFFFFFFF.
Definition rotl (x s : N) : N := w32 (N.lor (N.shiftl x s) (N.shiftr x (32 - s))).

Definition shifts : list N :=
  [7; 12; 17; 22; 7; 12; 17; 22; 7; 12; 17; 22; 7; 12; 17; 22;
   5; 9; 14; 20; 5; 9; 14; 20; 5; 9; 14; 20; 5; 9; 14; 20;
   4; 11; 16; 23; 4; 11; 16; 23; 4; 11; 16; 23; 4; 11; 16; 23;
   6; 10; 15; 21; 6; 10; 15; 21; 6; 10; 15; 21; 6; 10; 15; 21].

(** [floor (2^32 * |sin (i + 1)|)] *)
Definition sines : list N :=
  [0xd76aa478; 0xe8c7b756; 0x242070db; 0xc1bdceee;
   0xf57c0faf; 0x4787c62a; 0xa8304613; 0xfd469501;
   0x698098d8; 0x8b44f7af; 0xffff5bb1; 0x895cd7be;
   0x6b901122; 0xfd987193; 0xa679438e; 0x49b40821;
   0xf61e2562; 0xc040b340; 0x265e5a51; 0xe9b6c7aa;
   0xd62f105d; 0x02441453; 0xd8a1e681; 0xe7d3fbc8;
   0x21e1cde6; 0xc33707d6; 0xf4d50d87; 0x455a14ed;
   0xa9e3e905; 0xfcefa3f8; 0x676f02d9; 0x8d2a4c8a;
   0xfffa3942; 0x8771f681; 0x6d9d6122; 0xfde5380c;
   0xa4beea44; 0x4bdecfa9; 0xf6bb4b60; 0xbebfbc70;
   0x289b7ec6; 0xeaa127fa; 0xd4ef3085; 0x04881d05;
   0xd9d4d039; 0xe6db99e5; 0x1fa27cf8; 0xc4ac5665;
   0xf4292244; 0x432aff97; 0xab9423a7; 0xfc93a039;
   0x655b59c3; 0x8f0ccc92; 0xffeff47d; 0x85845dd1;
   0x6fa87e4f; 0xfe2ce6e0; 0xa3014314; 0x4e0811a1;
   0xf7537e82; 0xbd3af235; 0x2ad7d2bb; 0xeb86d391].

(** The [n] low bytes of [x], least significant first. *)
Fixpoint le_bytes (n : nat) (x : N) : bytes :=
  match n with
  | O => []
  | S n' => x mod 256 :: le_bytes n' (x / 256)
  end.

Fixpoint le_word (bs : bytes) : N :=
  match bs with
  | [] => 0
  | b :: bs' => b + 256 * le_word bs'
  end.

Definition pad (msg : bytes) : bytes :=
  let n := length msg in
  msg ++ [0x80] ++ repeat 0 ((64 - (n + 9) mod 64) mod 64)%nat
      ++ le_bytes 8 (8 * N.of_nat n).

Fixpoint chunks (size : nat) (fuel : nat) (bs : bytes) : list bytes :=
  match fuel, bs with
  | S fuel', _ :: _ => take size bs :: chunks size fuel' (drop size bs)
  | _, _ => []
  end.

Definition state : Type := N * N * N * N.

Definition step (m : list N) (st : state) (i : nat) : state :=
  let '(a, b, c, d) := st in
  let '(f, g) :=
    match (i / 16)%nat with
    | 0%nat => (N.lor (N.land b c) (N.land (not32 b) d), i)
    | 1%nat => (N.lor (N.land d b) (N.land (not32 d) c), (5 * i + 1) mod 16)%nat
    | 2%nat => (N.lxor (N.lxor b c) d, (3 * i + 5) mod 16)%nat
    | _ => (N.lxor c (N.lor b (not32 d)), (7 * i) mod 16)%nat
    end in
  let f' := add32 (add32 (add32 f a) (nth i sines 0)) (nth g m 0) in
  (d, add32 b (rotl f' (nth i shifts 0)), b, c).

Definition compress (st : state) (chunk : bytes) : state :=
  let m := map le_word (chunks 4 16 chunk) in
  let '(a0, b0, c0, d0) := st in
  let '(a, b, c, d) := fold_left (step m) (seq 0 64) st in
  (add32 a0 a, add32 b0 b, add32 c0 c, add32 d0 d).

Definition digest (msg : bytes) : bytes :=
  let blocks := chunks 64 (length (pad msg)) (pad msg) in
  let '(a, b, c, d) :=
    fold_left compress blocks (0x67452301, 0xefcdab89, 0x98badcfe, 0x10325476) in
  le_bytes 4 a ++ le_bytes 4 b ++ le_bytes 4 c ++ le_bytes 4 d.

Definition hexdigit (n : N) : char :=
  let n := n mod 16 in if n <? 10 then 48 + n else 87 + n.

Definition hexdigest (msg : bytes) : str :=
  flat_map (fun b => [hexdigit (b / 16); hexdigit b]) (digest msg).

End MD5.

(** ** The Unicode database *)

(** What CPython reads in its Unicode tables for a code point outside ASCII. *)
Record Unicode : Type := {
  (** full lower-casing of the code point at an index of a string
      ([str.lower] looks at the context of a capital sigma) *)
  lower_ext : str -> nat -> list char;
  (** full upper-casing of a code point ([str.upper]) *)
  upper_ext : char -> list char;
  (** simple case mappings, as [re] uses them *)
  tolower_ext : char -> char;
  toupper_ext : char -> char;
  (** the lower-case code points [re] treats as equal to a lower-case one *)
  casefix_ext : char -> list char;
  (** [Py_UNICODE_TODECIMAL]: the value of a decimal digit *)
  decimal_ext : char -> option N;
}.

Section Runtime.
Context (U : Unicode).

Definition py_lower (s : str) : str :=
  concat (imap (fun i c => if c <? 128 then [ascii_tolower c] else lower_ext U s i) s).

Definition py_upper (s : str) : str :=
  concat (map (fun c => if c <? 128 then [ascii_toupper c] else upper_ext U c) s).

Definition sre_lower (c : char) : char :=
  if c <? 128 then ascii_tolower c else tolower_ext U c.

Definition sre_upper (c : char) : char :=
  if c <? 128 then ascii_toupper c else toupper_ext U c.

Definition iscased (c : char) : bool :=
  negb (c =? sre_lower c) || negb (c =? sre_upper c).

(** [re._casefix._EXTRA_CASES]: on ASCII, i goes with dotless i and s with long s. *)
Definition casefix (lo : char) : list char :=
  if lo <? 128 then
    if lo =? 105 then [0x131] else if lo =? 115 then [0x17F] else []
  else casefix_ext U lo.

Definition decimal_value (c : char) : option N :=
  if c <? 128 then (if is_ascii_digit c then Some (c - 48) else None)
  else decimal_ext U c.

Definition isdecimal (c : char) : bool :=
  match decimal_value c with Some _ => true | None => false end.

(** ** Regular expressions *)

(** The patterns of the script, parsed. *)
Inductive regex : Type :=
| Empty                                           (* the empty pattern *)
| Lit (c : char)                                  (* a literal character *)
| CharSet (negate : bool) (ranges : list (char * char))  (* [a-z0-9], [^...] *)
| Digit                                           (* \d *)
| Seq (r1 r2 : regex)
| Alt (r1 r2 : regex)                             (* r1|r2 *)
| Opt (r : regex)                                 (* r? *)
| Plus (r : regex)                                (* r+ *)
| Group (n : nat) (r : regex).                    (* the n-th capturing group *)

(** A string of literals, [lits (py "ter")] for [ter]. *)
Fixpoint lits (w : str) : regex :=
  match w with
  | [] => Empty
  | c :: w' => Seq (Lit c) (lits w')
  end.

Definition groups : Type := list (nat * str).

Definition group (n : nat) (g : groups) : option str :=
  snd <$> find (fun p => Nat.eqb (fst p) n) g.

(** The lower-case code points that stand for a pattern character under
    [re.IGNORECASE]. *)
Definition folded (c : char) : list char := sre_lower c :: casefix (sre_lower c).

(** A literal under [re.IGNORECASE]: a cased pattern character matches the
    characters whose lower case is its own or one of its [casefix]; any other
    literal matches itself. *)
Definition lit_match (ic : bool) (c ch : char) : bool :=
  if ic && iscased c
  then existsb (N.eqb (sre_lower ch)) (folded c)
  else ch =? c.

Definition in_ranges (ranges : list (char * char)) (ch : char) : bool :=
  existsb (fun r => (fst r <=? ch) && (ch <=? snd r)) ranges.

Definition range_chars (r : char * char) : list char :=
  map (fun i => fst r + N.of_nat i) (seq 0 (N.to_nat (snd r + 1 - fst r))).

(** A set under [re.IGNORECASE]: when one of its characters is cased, the
    lower case of the subject is looked up among the lower cases of the set. *)
Definition set_match (ic negate : bool) (ranges : list (char * char)) (ch : char) : bool :=
  xorb negate
    (if ic && existsb (fun r => existsb iscased (range_chars r)) ranges
     then existsb
            (fun r => existsb (fun c => existsb (N.eqb (sre_lower ch)) (folded c))
                        (range_chars r))
            ranges
     else in_ranges ranges ch).

(** Greedy repetition: after one more round of [step] first try another
    round, then stop. *)
Fixpoint plus_loop (step : str * groups -> list (str * groups))
    (fuel : nat) (st : str * groups) : list (str * groups) :=
  match fuel with
  | O => []
  | S n =>
      flat_map
        (fun st' =>
           (if (length (fst st') <? length (fst st))%nat then plus_loop step n st' else [])
           ++ [st'])
        (step st)
  end.

Definition one_char (p : char -> bool) (st : str * groups) : list (str * groups) :=
  match fst st with
  | ch :: s' => if p ch then [(s', snd st)] else []
  | [] => []
  end.

(** The backtracking matcher: every way [r] matches a prefix of the subject,
    in the order [re] tries them, as (what is left, groups). *)
Fixpoint run (ic : bool) (r : regex) (st : str * groups) : list (str * groups) :=
  match r with
  | Empty => [st]
  | Lit c => one_char (lit_match ic c) st
  | CharSet negate ranges => one_char (set_match ic negate ranges) st
  | Digit => one_char isdecimal st
  | Seq r1 r2 => flat_map (run ic r2) (run ic r1 st)
  | Alt r1 r2 => run ic r1 st ++ run ic r2 st
  | Opt r1 => run ic r1 st ++ [st]
  | Plus r1 => plus_loop (run ic r1) (S (length (fst st))) st
  | Group n r1 =>
      map (fun st' =>
             (fst st', (n, take (length (fst st) - length (fst st')) (fst st)) :: snd st'))
          (run ic r1 st)
  end.

(** [re.fullmatch(r, s, flags)]: the first match that uses all of [s]. *)
Definition fullmatch (ic : bool) (r : regex) (s : str) : option groups :=
  snd <$> find (fun st => match fst st with [] => true | _ => false end) (run ic r (s, [])).

(** A replacement template: text and group references. *)
Inductive titem : Type :=
| TText (s : str)
| TRef (n : nat).

Definition expand (tpl : list titem) (g : groups) : str :=
  concat (map (fun it => match it with
                         | TText s => s
                         | TRef n => default [] (group n g)
                         end) tpl).

(** [re.sub(r, tpl, s)] for a pattern that matches no empty string: scan from
    the left, replace a match and go on after it. *)
Fixpoint sub_loop (r : regex) (tpl : list titem) (fuel : nat) (s : str) : str :=
  match fuel with
  | O => s
  | S n =>
      match s with
      | [] => []
      | ch :: s' =>
          match head (run false r (s, [])) with
          | Some (s'', g) =>
              if (length s'' <? length s)%nat
              then expand tpl g ++ sub_loop r tpl n s''
              else ch :: sub_loop r tpl n s'
          | None => ch :: sub_loop r tpl n s'
          end
      end
  end.

Definition re_sub (r : regex) (tpl : list titem) (s : str) : str :=
  sub_loop r tpl (length s) s.

(** ** int() and str() of an integer *)

(** [sys.int_max_str_digits], at its default. *)
Definition int_max_str_digits : nat := 4300.

(** [int(s)] for a string of decimal digits (of any script): a numeral of
    more digits than the limit is refused, leading zeros counted. *)
Definition py_int (s : str) : res N :=
  match s with
  | [] => Raise ValueError
  | _ =>
      if (int_max_str_digits <? length s)%nat then Raise ValueError
      else
        foldM (fun acc c => d ← of_option ValueError (decimal_value c); Ok (10 * acc + d)) 0 s
  end.

Fixpoint uint_chars (d : Decimal.uint) : str :=
  match d with
  | Decimal.Nil => []
  | Decimal.D0 d' => 48 :: uint_chars d'
  | Decimal.D1 d' => 49 :: uint_chars d'
  | Decimal.D2 d' => 50 :: uint_chars d'
  | Decimal.D3 d' => 51 :: uint_chars d'
  | Decimal.D4 d' => 52 :: uint_chars d'
  | Decimal.D5 d' => 53 :: uint_chars d'
  | Decimal.D6 d' => 54 :: uint_chars d'
  | Decimal.D7 d' => 55 :: uint_chars d'
  | Decimal.D8 d' => 56 :: uint_chars d'
  | Decimal.D9 d' => 57 :: uint_chars d'
  end.

(** [str(n)], [f"{n}"] for a non-negative integer. *)
Definition py_str (n : N) : str := uint_chars (N.to_uint n).

(** ** pretty_title *)

(** [chap(?:ter|er)(\d+)] *)
Definition chapter_re : regex :=
  Seq (lits (py "chap")) (Seq (Alt (lits (py "ter")) (lits (py "er"))) (Group 1 (Plus Digit))).

(** [diffusion[-_ ]?(\d+)] *)
Definition diffusion_re : regex :=
  Seq (lits (py "diffusion"))
    (Seq (Opt (CharSet false [(hyphen, hyphen); (underscore, underscore); (space, space)]))
       (Group 1 (Plus Digit))).

(** [match.group(1)] passed to [int]. *)
Definition int_group1 (g : groups) : res N :=
  d ← of_option TypeError (group 1 g); py_int d.

Definition pretty_title (stem : str) : res str :=
  match fullmatch true chapter_re stem with
  | Some chapter_match =>
      n ← int_group1 chapter_match;
      Ok ([0x7B2C] ++ py_str n ++ [0x7AE0])
  | None =>
      match fullmatch true diffusion_re stem with
      | Some diffusion_match =>
          n ← int_group1 diffusion_match;
          Ok (py "Diffusion " ++ py_str n)
      | None =>
          if str_eqb (py_upper stem) (py "VAE") then Ok (py "VAE")
          else Ok (strip is_space (replace hyphen space (replace underscore space stem)))
      end
  end.

(** ** slugify_category_key *)

Definition alnum_ranges : list (char * char) := [(97, 122); (48, 57)].
Definition is_alnum (c : char) : bool := in_ranges alnum_ranges c.

(** [[^a-z0-9]+] *)
Definition nonalnum_re : regex := Plus (CharSet true alnum_ranges).

(** [re.sub(r"[^a-z0-9]+", "-", s).strip("-")] *)
Definition slug (s : str) : str :=
  strip is_hyphen (re_sub nonalnum_re [TText (py "-")] s).

Definition slugify_category_key (name : str) : res str :=
  let key := slug (py_lower name) in
  match key with
  | _ :: _ => Ok key
  | [] =>
      encoded ← encode_utf8 name;
      let fallback := take 8 (MD5.hexdigest encoded) in
      Ok (py "cat-" ++ fallback)
  end.

(** ** prettify_category_name *)

Definition CATEGORY_NAME_OVERRIDES : gmap str str :=
  list_to_map
    [ (py "TimeSeries", [0x65F6; 0x95F4; 0x5E8F; 0x5217]);
      (py "Diffusion", [0x6269; 0x6563; 0x6A21; 0x578B]);
      (py "RandomProcess", [0x968F; 0x673A; 0x8FC7; 0x7A0B]);
      (py "StochasticProcess", [0x968F; 0x673A; 0x8FC7; 0x7A0B]) ].

(** [([a-z0-9])([A-Z])] *)
Definition camel_re : regex :=
  Seq (Group 1 (CharSet false alnum_ranges)) (Group 2 (CharSet false [(65, 90)])).

Definition prettify_category_name (name : str) : str :=
  match CATEGORY_NAME_OVERRIDES !! name with
  | Some override => override
  | None =>
      let with_spaces := re_sub camel_re [TRef 1; TText (py " "); TRef 2] name in
      let with_spaces :=
        strip is_space (replace hyphen space (replace underscore space with_spaces)) in
      match with_spaces with
      | [] => name
      | _ :: _ => with_spaces
      end
  end.

(** ** Sorting *)

(** [list.sort] and [sorted] are stable: an element goes before the first
    one that is not smaller than it. *)
Fixpoint insert_by {A : Type} (lt : A -> A -> bool) (x : A) (l : list A) : list A :=
  match l with
  | [] => [x]
  | y :: l' => if lt y x then y :: insert_by lt x l' else x :: l
  end.

Definition py_sorted {A : Type} (lt : A -> A -> bool) (l : list A) : list A :=
  foldr (insert_by lt) [] l.

(** [sorted(l, key=key)] and [sorted(l, key=key, reverse=True)] *)
Definition sorted_by {A K : Type} (ltK : K -> K -> bool) (key : A -> K) (l : list A) : list A :=
  py_sorted (fun a b => ltK (key a) (key b)) l.

Definition sorted_by_reverse {A K : Type} (ltK : K -> K -> bool) (key : A -> K)
    (l : list A) : list A :=
  py_sorted (fun a b => ltK (key b) (key a)) l.

(** Comparison of the tuples used as sort keys. *)
Definition rank_name_ltb (a b : nat * str) : bool :=
  (fst a <? fst b)%nat || ((fst a =? fst b)%nat && str_ltb (snd a) (snd b)).

Definition ts_title_ltb (a b : Z * str) : bool :=
  (fst a <? fst b)%Z || ((fst a =? fst b)%Z && str_ltb (snd a) (snd b)).

(** ** The file system *)

(** An entry of a category directory: its name, whether it is a regular file
    (the script never asks), and its modification time in microseconds since
    the epoch (the resolution [datetime] keeps). *)
Record File : Type := {
  file_name : str;
  is_file : bool;
  st_mtime : Z;
}.

(** An entry of the root: its name, whether it is a directory, and what it
    lists when it is one. *)
Record Path : Type := {
  name : str;
  is_dir : bool;
  iterdir : list File;
}.

(** [directory.glob("*.html")], in the order of the listing. *)
Definition glob_html (directory : Path) : list File :=
  filter (fun f => endswith (py ".html") (file_name f) = true) (iterdir directory).

Fixpoint rfind (c : char) (s : str) : option nat :=
  match s with
  | [] => None
  | a :: s' =>
      match rfind c s' with
      | Some i => Some (S i)
      | None => if a =? c then Some O else None
      end
  end.

(** [PurePath.stem]: the name without its last suffix; a dot at either end of
    the name starts no suffix. *)
Definition stem (nm : str) : str :=
  match rfind 46 nm with
  | Some i => if (0 <? i)%nat && (i <? length nm - 1)%nat then take i nm else nm
  | None => nm
  end.

(** ** discover_categories *)

Definition CATEGORY_ORDER_HINTS : list str :=
  [py "timeseries"; py "diffusion"; py "randomprocess"; py "stochasticprocess"].

Definition IGNORED_DIRS : gset str :=
  {[ py ".git"; py "__pycache__"; py "assets"; py "data"; py "scripts" ]}.

Fixpoint index {A : Type} `{EqDecision A} (x : A) (l : list A) : option nat :=
  match l with
  | [] => None
  | y :: l' => if decide (y = x) then Some O else S <$> index x l'
  end.

Definition Category : Type := str * str * Path.

(** The [while key in used_keys] loop, from [key] and [suffix] on. *)
Fixpoint unique_key (fuel : nat) (used_keys : gset str) (base_key key : str) (suffix : nat)
    : res str :=
  match fuel with
  | O => Raise OutOfFuel
  | S fuel' =>
      if bool_decide (key ∈ used_keys)
      then unique_key fuel' used_keys base_key (base_key ++ py "-" ++ py_str (N.of_nat suffix)) (S suffix)
      else Ok key
  end.

(** The body of the [for directory in ...] loop on [(discovered, used_keys)]. *)
Definition visit (st : list Category * gset str) (directory : Path)
    : res (list Category * gset str) :=
  let '(discovered, used_keys) := st in
  if negb (is_dir directory) then Ok st
  else if startswith (py ".") (name directory) || bool_decide (name directory ∈ IGNORED_DIRS)
  then Ok st
  else
    match glob_html directory with
    | [] => Ok st
    | _ :: _ =>
        base_key ← slugify_category_key (name directory);
        key ← unique_key (S (size used_keys)) used_keys base_key base_key 2;
        Ok (discovered ++ [(key, prettify_category_name (name directory), directory)],
            {[ key ]} ∪ used_keys)
    end.

Definition sort_key (item : Category) : nat * str :=
  let key := item.1.1 in
  match index key CATEGORY_ORDER_HINTS with
  | Some i => (i, py_lower item.1.2)
  | None => (length CATEGORY_ORDER_HINTS, py_lower item.1.2)
  end.

(** [root] is the listing of the root directory, as [root.iterdir()] yields it. *)
Definition discover_categories (root : list Path) : res (list Category) :=
  st ← foldM visit ([], ∅) (sorted_by str_ltb (fun item => py_lower (name item)) root);
  Ok (sorted_by rank_name_ltb sort_key st.1).

(** ** build_note *)

Record Note : Type := {
  note_id : str;
  title : str;
  fileName : str;
  path : str;
  category : str;
  categoryName : str;
  updatedAt : str;
  updatedAtTs : Z;
}.

(** What the host's clock and time zone decide. *)
Record Host : Type := {
  (** [datetime.fromtimestamp(t).astimezone().strftime("%Y-%m-%d")] for a
      time in microseconds, [None] outside the range of [datetime] *)
  local_date : Z -> option str;
  (** [strftime("%Y-%m-%d %H:%M:%S %z")] of an instant in the local zone *)
  local_stamp : Z -> str;
}.

Context (host : Host).

(** [html_file] is an entry of [target_dir], itself an entry of the root. *)
Definition build_note (target_dir : Path) (html_file : File)
    (category_key category_name : str) : res Note :=
  mtime ← of_option OverflowError (local_date host (st_mtime html_file));
  let relative_path := name target_dir ++ py "/" ++ file_name html_file in
  let safe_id := slug (category_key ++ py "-" ++ py_lower (stem (file_name html_file))) in
  note_title ← pretty_title (stem (file_name html_file));
  Ok {| note_id := safe_id;
        title := note_title;
        fileName := file_name html_file;
        path := relative_path;
        category := category_key;
        categoryName := category_name;
        updatedAt := mtime;
        updatedAtTs := Z.quot (st_mtime html_file) 1000000 |}.

(** ** gather_notes *)

Record CategoryEntry : Type := {
  key : str;
  cname : str;
  count : nat;
}.

Record Document : Type := {
  generatedAt : str;
  total : nat;
  categories : list CategoryEntry;
  notes : list Note;
}.

Definition gather_state : Type := list Note * gmap str nat * list (str * str).

(** The body of the [for ... in discover_categories(root)] loop. *)
Definition gather_category (st : gather_state) (item : Category) : res gather_state :=
  let '(notes, counts, categories_meta) := st in
  let '(category_key, category_name, target_dir) := item in
  let html_files := sorted_by str_ltb file_name (glob_html target_dir) in
  let counts := <[ category_key := length html_files ]> counts in
  let categories_meta := categories_meta ++ [(category_key, category_name)] in
  notes ← foldM (fun notes html_file =>
                    note ← build_note target_dir html_file category_key category_name;
                    Ok (notes ++ [note]))
                 notes html_files;
  Ok (notes, counts, categories_meta).

(** [now] is the clock when [generatedAt] is taken. *)
Definition gather_notes (now : Z) (root : list Path) : res Document :=
  discovered ← discover_categories root;
  '(notes, counts, categories_meta) ← foldM gather_category ([], ∅, []) discovered;
  let notes :=
    sorted_by_reverse ts_title_ltb (fun item => (updatedAtTs item, title item)) notes in
  let categories :=
    {| key := py "all"; cname := [0x5168; 0x90E8]; count := length notes |}
    :: map (fun meta => {| key := meta.1; cname := meta.2;
                           count := default O (counts !! meta.1) |})
         categories_meta in
  Ok {| generatedAt := local_stamp host now;
        total := length notes;
        categories := categories;
        notes := notes |}.

End Runtime.

(** * The vocabulary of the specification *)

Section Vocabulary.
Context (U : Unicode) (host : Host).

(** What [p+] leaves, longest match first. *)
Fixpoint greedy (p : char -> bool) (s : str) (g : groups) : list (str * groups) :=
  match s with
  | c :: s' => if p c then greedy p s' g ++ [(s', g)] else []
  | [] => []
  end.

Definition is_nil {A : Type} (l : list A) : bool :=
  match l with [] => true | _ => false end.

(** The first element that [f] maps to [Some]. *)
Fixpoint first_some {A B : Type} (f : A -> option B) (l : list A) : option B :=
  match l with
  | [] => None
  | x :: l' => match f x with Some y => Some y | None => first_some f l' end
  end.

(** [w] matched at the head of [s], character by character: what is left. *)
Fixpoint lits_prefix (ic : bool) (w s : str) : option str :=
  match w with
  | [] => Some s
  | c :: w' =>
      match s with
      | ch :: s' => if lit_match U ic c ch then lits_prefix ic w' s' else None
      | [] => None
      end
  end.

(** [(\d+)] as group [n], then the end of the string. *)
Definition digits_to_end (n : nat) (st : str * groups) : option (str * groups) :=
  if negb (is_nil (fst st)) && forallb (isdecimal U) (fst st)
  then Some ([], (n, fst st) :: snd st) else None.

Definition digits_ok (s : str) : bool := negb (is_nil s) && forallb (isdecimal U) s.

Definition keep_digits (s : str) : option str := if digits_ok s then Some s else None.

Definition option_list {A : Type} (o : option A) : list A :=
  match o with Some x => [x] | None => [] end.

(** [fullmatch] of [chapter_re], as a function: the digits of a match. *)
Definition chapter_digits (stem : str) : option str :=
  match lits_prefix true (py "chap") stem with
  | None => None
  | Some s1 =>
      first_some keep_digits
        (option_list (lits_prefix true (py "ter") s1)
         ++ option_list (lits_prefix true (py "er") s1))
  end.

Definition separators : list (char * char) :=
  [(hyphen, hyphen); (underscore, underscore); (space, space)].

(** [fullmatch] of [diffusion_re], as a function. *)
Definition diffusion_digits (stem : str) : option str :=
  match lits_prefix true (py "diffusion") stem with
  | None => None
  | Some s1 =>
      first_some keep_digits
        (match s1 with
         | ch :: s2 => if in_ranges separators ch then [s2] else []
         | [] => []
         end ++ [s1])
  end.

(** [pre] is the word [w] as [re.IGNORECASE] reads it. *)
Definition ci_word (w pre : str) : Prop :=
  Forall2 (fun c ch => lit_match U true c ch = true) w pre.

Definition decimal_digits (ds : str) : Prop :=
  ds <> [] /\ Forall (fun c => isdecimal U c = true) ds.

(** The stem matches [chap(ter|er)<digits>], with these digits. *)
Definition matches_chapter (stem ds : str) : Prop :=
  exists pre, stem = pre ++ ds
    /\ (ci_word (py "chapter") pre \/ ci_word (py "chaper") pre)
    /\ decimal_digits ds.

(** The stem matches [diffusion[-_ ]?<digits>], with these digits. *)
Definition matches_diffusion (stem ds : str) : Prop :=
  exists pre sep, stem = pre ++ sep ++ ds
    /\ ci_word (py "diffusion") pre
    /\ (sep = [] \/ sep = [hyphen] \/ sep = [underscore] \/ sep = [space])
    /\ decimal_digits ds.

(** The value [int] gives a string of decimal digits. *)
Definition int_value (ds : str) : N :=
  fold_left (fun acc c => 10 * acc + default 0 (decimal_value U c)) ds 0.

(** [str.upper] leaves decimal digits alone. *)
Definition digits_uncased : Prop :=
  forall c, isdecimal U c = true -> py_upper U [c] = [c].

Definition slug_char (c : char) : Prop := is_alnum c = true \/ c = hyphen.

(** Non-empty, over [a-z0-9-], no hyphen at either end. *)
Definition good_slug (s : str) : Prop :=
  s <> [] /\ Forall slug_char s /\ head s <> Some hyphen /\ last s <> Some hyphen.

(** Every maximal run outside [a-z0-9] becomes one hyphen. *)
Fixpoint collapse_aux (in_run : bool) (s : str) : str :=
  match s with
  | [] => []
  | c :: s' =>
      if is_alnum c then c :: collapse_aux false s'
      else if in_run then collapse_aux true s'
      else hyphen :: collapse_aux true s'
  end.

Definition collapse (s : str) : str := collapse_aux false s.

Definition nonalnum (c : char) : bool := negb (is_alnum c).

Definition surrogate (c : char) : bool := (0xD800 <=? c) && (c <=? 0xDFFF).

(** What a stable sort needs of the comparison it is given. *)
Record strict_weak {A : Type} (lt : A -> A -> bool) : Prop := {
  sw_asym : forall a b, lt a b = true -> lt b a = false;
  sw_trans : forall a b c, lt b a = false -> lt c b = false -> lt c a = false;
}.

(** The key tried with suffix [j]. *)
Definition candidate (base_key : str) (j : nat) : str :=
  base_key ++ py "-" ++ py_str (N.of_nat j).

Definition category_key (c : Category) : str := c.1.1.
Definition category_name (c : Category) : str := c.1.2.
Definition category_dir (c : Category) : Path := c.2.

(** A directory the scan keeps. *)
Definition kept (directory : Path) : Prop :=
  is_dir directory = true
  /\ startswith (py ".") (name directory) = false
  /\ (name directory ∉ IGNORED_DIRS)
  /\ glob_html directory <> [].

(** What [discover_categories] says of a category it returns. *)
Definition discovered_ok (root : list Path) (c : Category) : Prop :=
  good_slug (category_key c)
  /\ category_name c = prettify_category_name U (name (category_dir c))
  /\ category_dir c ∈ root
  /\ kept (category_dir c).

Definition visit_inv (root : list Path) (st : list Category * gset str) : Prop :=
  (forall k, k ∈ st.2 <-> k ∈ map category_key st.1)
  /\ NoDup (map category_key st.1)
  /\ Forall (discovered_ok root) st.1.

(** The sum of the counts of a list of category entries. *)
Definition count_sum (cs : list CategoryEntry) : nat := sum_list (map count cs).

(** A note of category [c], built from one of its [*.html] entries. *)
Definition note_of (c : Category) (n : Note) : Prop :=
  exists f, f ∈ glob_html (category_dir c)
    /\ build_note U host (category_dir c) f (category_key c) (category_name c) = Ok n.

Definition meta_of (c : Category) : str * str := (category_key c, category_name c).

Definition gather_inv (done : list Category) (st : gather_state) : Prop :=
  let '(notes, counts, categories_meta) := st in
  categories_meta = map meta_of done
  /\ (forall k, k ∉ map category_key done -> counts !! k = None)
  /\ sum_list (map (fun c => default O (counts !! category_key c)) done) = length notes
  /\ Forall (fun n => exists c, c ∈ done /\ note_of c n) notes.

(** The entry of the summary for a category, given the table of counts. *)
Definition entry_of (counts : gmap str nat) (c : Category) : CategoryEntry :=
  {| key := category_key c; cname := category_name c;
     count := default O (counts !! category_key c) |}.

Definition note_sort_key (item : Note) : Z * str := (updatedAtTs item, title item).

(** The white space of Python, one code point after the other. *)
Definition white_space : list char :=
  [0x09; 0x0A; 0x0B; 0x0C; 0x0D; 0x1C; 0x1D; 0x1E; 0x1F; 0x20; 0x85; 0xA0; 0x1680;
   0x2000; 0x2001; 0x2002; 0x2003; 0x2004; 0x2005; 0x2006; 0x2007; 0x2008; 0x2009;
   0x200A; 0x2028; 0x2029; 0x202F; 0x205F; 0x3000].

(** [t] is [s] without the white space at its two ends. *)
Definition trimmed (s t : str) : Prop :=
  exists a b, s = a ++ t ++ b
    /\ Forall (fun c => c ∈ white_space) a /\ Forall (fun c => c ∈ white_space) b
    /\ (forall c, head t = Some c -> c ∉ white_space)
    /\ (forall c, last t = Some c -> c ∉ white_space).

(** Every underscore and every hyphen turned into a space. *)
Definition spaced (s : str) : str :=
  map (fun c => if bool_decide (c = underscore \/ c = hyphen) then space else c) s.

(** A space at each boundary from [a-z0-9] to [A-Z]. *)
Fixpoint camel_spaces (s : str) : str :=
  match s with
  | [] => []
  | a :: s' =>
      match s' with
      | b :: _ =>
          if is_alnum a && is_ascii_upper b then a :: space :: camel_spaces s'
          else a :: camel_spaces s'
      | [] => [a]
      end
  end.

(** The boundary in the words of the specification, whatever the script: a
    character is lower-case when upper-casing changes it and upper-case when
    lower-casing changes it. *)
Definition is_lowercase (c : char) : bool := negb (str_eqb (py_upper U [c]) [c]).
Definition is_uppercase (c : char) : bool := negb (str_eqb (py_lower U [c]) [c]).

(** A space at each boundary from a lower-case character or a digit to an
    upper-case character. *)
Fixpoint camel_spaces_cased (s : str) : str :=
  match s with
  | [] => []
  | a :: s' =>
      match s' with
      | b :: _ =>
          if (is_lowercase a || isdecimal U a) && is_uppercase b
          then a :: space :: camel_spaces_cased s'
          else a :: camel_spaces_cased s'
      | [] => [a]
      end
  end.

(** The display name in the words of the specification. *)
Definition display_name_cased (name : str) : str :=
  match CATEGORY_NAME_OVERRIDES !! name with
  | Some override => override
  | None =>
      let t := strip is_space (spaced (camel_spaces_cased name)) in
      if is_nil t then name else t
  end.

(** The entries of a directory that are regular files named [*.html]. *)
Definition html_regular_files (directory : Path) : list File :=
  filter (fun f => is_file f && endswith (py ".html") (file_name f) = true)
    (iterdir directory).

(** A category whose key is in the priority list. *)
Definition priority (c : Category) : Prop := category_key c ∈ CATEGORY_ORDER_HINTS.

(** The sum the specification tests: the counts of the entries whose key is
    not ["all"]. *)
Definition count_sum_except_all (cs : list CategoryEntry) : nat :=
  count_sum (filter (fun c => key c <> py "all") cs).

(** The document without its [generatedAt] field. *)
Definition without_generatedAt (d : Document) : nat * list CategoryEntry * list Note :=
  (total d, categories d, notes d).

Definition res_map {A B : Type} (f : A -> B) (m : res A) : res B :=
  match m with
  | Ok a => Ok (f a)
  | Raise e => Raise e
  end.

(** An entry whose note can be built: its modification time is in the range
    of [datetime] and its name within the limit of [int]. *)
Definition in_range (f : File) : Prop :=
  is_Some (local_date host (st_mtime f))
  /\ (length (file_name f) <= int_max_str_digits)%nat.

(** A name [str.encode] accepts. *)
Definition encodable (s : str) : Prop := Forall (fun c => surrogate c = false) s.

(** Two listings of one directory: the same name and kind, the same entries
    in some order. *)
Definition same_dir (d1 d2 : Path) : Prop :=
  name d1 = name d2 /\ is_dir d1 = is_dir d2 /\ iterdir d1 ≡ₚ iterdir d2.

(** Two listings of one tree, whatever the order in which the entries of the
    root and of each directory are enumerated. *)
Definition same_tree (root1 root2 : list Path) : Prop :=
  exists root, root1 ≡ₚ root /\ Forall2 same_dir root root2.

(** No two entries of a directory have the same name, and no two entries of
    the root have the same lower-cased name. *)
Definition distinct_names (root : list Path) : Prop :=
  NoDup (map (fun d => py_lower U (name d)) root)
  /\ Forall (fun d => NoDup (map file_name (iterdir d))) root.

Definition same_category (c1 c2 : Category) : Prop :=
  category_key c1 = category_key c2 /\ category_name c1 = category_name c2
  /\ same_dir (category_dir c1) (category_dir c2).

(** Two results that raise the same exception or hold related values. *)
Definition res_rel {A B : Type} (R : A -> B -> Prop) (m1 : res A) (m2 : res B) : Prop :=
  match m1, m2 with
  | Ok a, Ok b => R a b
  | Raise e1, Raise e2 => e1 = e2
  | _, _ => False
  end.

End Vocabulary.

(** Two hosts give the modification time of every [*.html] entry of the tree
    the same local date. *)
Definition same_dates (host1 host2 : Host) (root : list Path) : Prop :=
  forall d f, d ∈ root -> f ∈ glob_html d ->
    local_date host1 (st_mtime f) = local_date host2 (st_mtime f).

(** * Sample runtimes and trees *)

(** A database with nothing outside ASCII: every other code point is its own
    lower and upper case and no digit. *)
Definition ascii_only : Unicode := {|
  lower_ext := fun s i => match s !! i with Some c => [c] | None => [] end;
  upper_ext := fun c => [c];
  tolower_ext := fun c => c;
  toupper_ext := fun c => c;
  casefix_ext := fun _ => [];
  decimal_ext := fun _ => None;
|}.

(** The same with the Arabic-Indic digits, U+0660 to U+0669. *)
Definition arabic_indic : Unicode := {|
  lower_ext := fun s i => match s !! i with Some c => [c] | None => [] end;
  upper_ext := fun c => [c];
  tolower_ext := fun c => c;
  toupper_ext := fun c => c;
  casefix_ext := fun _ => [];
  decimal_ext := fun c => if (0x660 <=? c) && (c <=? 0x669) then Some (c - 0x660) else None;
|}.

(** The civil date of a day number (days since 1970-01-01). *)
Definition civil_from_days (days : Z) : Z * Z * Z :=
  let z := (days + 719468)%Z in
  let era := (z / 146097)%Z in
  let doe := (z - era * 146097)%Z in
  let yoe := ((doe - doe / 1460 + doe / 36524 - doe / 146096) / 365)%Z in
  let doy := (doe - (365 * yoe + yoe / 4 - yoe / 100))%Z in
  let mp := ((5 * doy + 2) / 153)%Z in
  let d := (doy - (153 * mp + 2) / 5 + 1)%Z in
  let m := (if mp <? 10 then mp + 3 else mp - 9)%Z in
  let y := (yoe + era * 400 + (if m <=? 2 then 1 else 0))%Z in
  (y, m, d).

Definition zero_padded (width : nat) (n : Z) : str :=
  let s := py_str (Z.to_N n) in repeat 48 (width - length s) ++ s.

(** The date and the stamp of a time in the zone [offset] microseconds east
    of UTC, whose [%z] is [zone]. *)
Definition zone_date (offset t : Z) : option str :=
  let '(y, m, d) := civil_from_days ((t + offset) / 1000000 / 86400) in
  if ((1 <=? y) && (y <=? 9999))%Z
  then Some (zero_padded 4 y ++ py "-" ++ zero_padded 2 m ++ py "-" ++ zero_padded 2 d)
  else None.

Definition zone_stamp (offset : Z) (zone : str) (t : Z) : str :=
  let s := ((t + offset) / 1000000 mod 86400)%Z in
  default [] (zone_date offset t) ++ py " " ++ zero_padded 2 (s / 3600) ++ py ":"
    ++ zero_padded 2 (s / 60 mod 60) ++ py ":" ++ zero_padded 2 (s mod 60) ++ py " " ++ zone.

Definition utc_date : Z -> option str := zone_date 0.
Definition utc_stamp : Z -> str := zone_stamp 0 (py "+0000").

(** A host whose local zone is UTC. *)
Definition utc_host : Host := {| local_date := utc_date; local_stamp := utc_stamp |}.

(** A host eight hours east of UTC. *)
Definition east_host : Host := {|
  local_date := zone_date 28800000000;
  local_stamp := zone_stamp 28800000000 (py "+0800");
|}.

(** A host in the same zone that prints its stamps another way. *)
Definition terse_host : Host := {| local_date := utc_date; local_stamp := fun _ => py "now" |}.

Definition html (nm : string) (mtime : Z) : File :=
  {| file_name := py nm ++ py ".html"; is_file := true; st_mtime := mtime |}.

Definition timeseries_dir : Path :=
  {| name := py "TimeSeries"; is_dir := true;
     iterdir := [ html "chap1" 1700000000000000; html "chapter2" 1700000000000000;
                  {| file_name := py "notes.txt"; is_file := true; st_mtime := 7 |} ] |}.

(** A root with two priority categories, a directory whose key collides with
    one of them, and entries the scan skips. *)
Definition demo_root : list Path :=
  [ {| name := py "scripts"; is_dir := true; iterdir := [html "x" 5] |};
    timeseries_dir;
    {| name := py "Diffusion"; is_dir := true;
       iterdir := [html "diffusion-2" 1700000500000000] |};
    {| name := py "diffusion"; is_dir := true; iterdir := [html "a" 1700000500999999] |};
    {| name := py "README.html"; is_dir := false; iterdir := [] |};
    {| name := py "Empty"; is_dir := true; iterdir := [] |} ].

(** The first category of [demo_root]. *)
Definition timeseries_category : Category :=
  (py "timeseries", [0x65F6; 0x95F4; 0x5E8F; 0x5217], timeseries_dir).

(** A directory whose key is ["all"]. *)
Definition all_root : list Path :=
  [ {| name := py "All"; is_dir := true; iterdir := [html "a" 0] |} ].

(** A directory whose name is the byte 0xFF, as [os.scandir] decodes it. *)
Definition surrogate_root : list Path :=
  [ {| name := [0xDCFF]; is_dir := true; iterdir := [html "a" 0] |} ].

(** One note, written in the evening of 14 November 2023, UTC. *)
Definition evening_root : list Path :=
  [ {| name := py "notes"; is_dir := true; iterdir := [html "a" 1700000000000000] |} ].

(** Two directories whose names differ by case only. *)
Definition case_root : list Path :=
  [ {| name := py "Foo"; is_dir := true; iterdir := [html "x" 0] |};
    {| name := py "foo"; is_dir := true; iterdir := [html "y" 0] |} ].

(** A root without names that differ by case only. *)
Definition plain_root : list Path :=
  [ timeseries_dir;
    {| name := py "Diffusion"; is_dir := true;
       iterdir := [html "diffusion-2" 1700000500000000; html "vae" 1700000500000000] |};
    {| name := py "README.html"; is_dir := false; iterdir := [] |} ].

(** The listing of a tree with every enumeration reversed. *)
Definition reversed (root : list Path) : list Path :=
  rev (map (fun d => {| name := name d; is_dir := is_dir d; iterdir := rev (iterdir d) |})
         root).

(** A directory that holds a sub-directory named [x.html] and nothing else. *)
Definition subdir_root : list Path :=
  [ {| name := py "Notes"; is_dir := true;
       iterdir := [ {| file_name := py "x.html"; is_file := false; st_mtime := 0 |} ] |} ].

(** A database that knows one accented letter: U+00E9 and its capital. *)
Definition latin : Unicode := {|
  lower_ext := fun s i =>
    match s !! i with Some c => [if c =? 0xC9 then 0xE9 else c] | None => [] end;
  upper_ext := fun c => [if c =? 0xE9 then 0xC9 else c];
  tolower_ext := fun c => if c =? 0xC9 then 0xE9 else c;
  toupper_ext := fun c => if c =? 0xE9 then 0xC9 else c;
  casefix_ext := fun _ => [];
  decimal_ext := fun _ => None;
|}.

(** A tree whose notes were all written at noon, UTC, on 15 November 2023. *)
Definition noon_root : list Path :=
  [ {| name := py "TimeSeries"; is_dir := true;
       iterdir := [html "chap1" 1700049600000000; html "chapter2" 1700049600000000] |};
    {| name := py "Diffusion"; is_dir := true;
       iterdir := [html "diffusion-2" 1700049600000000] |};
    {| name := py "README.html"; is_dir := false; iterdir := [] |} ].

(** Two entries of one directory whose stems have the same slug. *)
Definition twin_root : list Path :=
  [ {| name := py "notes"; is_dir := true; iterdir := [html "a_b" 0; html "a-b" 1000000] |} ].

(** * Lemmas *)

(** ** The matcher on the shapes of pattern the script uses *)

Lemma plus_loop_one_char p fuel s g :
  (length s < fuel)%nat -> plus_loop (one_char p) fuel (s, g) = greedy p s g.
Proof.
  revert s. induction fuel as [|n IH]; intros s Hlen; [lia|].
  destruct s as [|c s']; [reflexivity|].
  cbn [plus_loop one_char fst snd greedy]. destruct (p c); [|reflexivity].
  cbn [flat_map fst length]. rewrite app_nil_r.
  replace (length s' <? S (length s'))%nat with true
    by (symmetry; apply Nat.ltb_lt; lia).
  rewrite IH by (cbn in Hlen; lia). reflexivity.
Qed.

Lemma greedy_head p s g :
  head (greedy p s g) =
  match s with
  | c :: s' => if p c then Some (lstrip p s', g) else None
  | [] => None
  end.
Proof.
  induction s as [|c s' IH]; [reflexivity|].
  cbn [greedy]. destruct (p c) eqn:Hc; [|reflexivity].
  destruct s' as [|c' s'']; [reflexivity|].
  cbn [lstrip]. destruct (greedy p (c' :: s'') g) as [|x l] eqn:Hg.
  - cbn in IH. destruct (p c'); [discriminate|]. reflexivity.
  - cbn in IH |- *. destruct (p c'); [congruence|discriminate].
Qed.

Lemma find_app {A} (f : A -> bool) l1 l2 :
  find f (l1 ++ l2) = match find f l1 with Some x => Some x | None => find f l2 end.
Proof. induction l1 as [|x l1 IH]; cbn; [reflexivity|]. destruct (f x); auto. Qed.

Lemma greedy_find_nil p s g :
  find (fun st => is_nil (fst st)) (greedy p s g) =
  if negb (is_nil s) && forallb p s then Some ([], g) else None.
Proof.
  induction s as [|c s' IH]; [reflexivity|].
  cbn [greedy forallb is_nil negb andb]. destruct (p c); [|reflexivity].
  rewrite find_app, IH. destruct s' as [|c' s'']; [reflexivity|].
  cbn [is_nil negb andb find fst]. destruct (forallb p (c' :: s'')); reflexivity.
Qed.

Lemma find_flat_map {A B} (P : B -> bool) (F : A -> list B) l :
  find P (flat_map F l) = first_some (fun x => find P (F x)) l.
Proof.
  induction l as [|x l IH]; [reflexivity|].
  cbn [flat_map first_some]. rewrite find_app, IH. reflexivity.
Qed.

Lemma first_some_ext {A B} (f f' : A -> option B) l :
  (forall x, f x = f' x) -> first_some f l = first_some f' l.
Proof. intros E. induction l as [|x l IH]; cbn; [reflexivity|]. rewrite E, IH. reflexivity. Qed.

Lemma find_map {A B} (P : B -> bool) (F : A -> B) l :
  find P (map F l) = F <$> find (fun x => P (F x)) l.
Proof. induction l as [|x l IH]; cbn; [reflexivity|]. destruct (P (F x)); auto. Qed.

Section Matcher.
Context (U : Unicode).

Lemma run_lits ic w s g :
  run U ic (lits w) (s, g) =
  match lits_prefix U ic w s with Some s' => [(s', g)] | None => [] end.
Proof.
  revert s. induction w as [|c w' IH]; intros s; [reflexivity|].
  cbn [lits run lits_prefix]. unfold one_char. cbn [fst snd].
  destruct s as [|ch s']; [reflexivity|].
  destruct (lit_match U ic c ch); [|reflexivity].
  cbn [flat_map]. rewrite IH, app_nil_r. reflexivity.
Qed.

Lemma run_plus_digit ic s g :
  run U ic (Plus Digit) (s, g) = greedy (isdecimal U) s g.
Proof. cbn [run fst]. apply plus_loop_one_char. lia. Qed.

Lemma greedy_snd p s g st : In st (greedy p s g) -> snd st = g.
Proof.
  induction s as [|c s' IH]; cbn; [tauto|]. destruct (p c); [|cbn; tauto].
  rewrite in_app_iff. cbn. intros [Hin|[<-|[]]]; auto.
Qed.

Lemma run_group ic n r st :
  run U ic (Group n r) st =
  map (fun st' => (fst st', (n, take (length (fst st) - length (fst st')) (fst st)) :: snd st'))
    (run U ic r st).
Proof. reflexivity. Qed.

Lemma run_seq ic r1 r2 st :
  run U ic (Seq r1 r2) st = flat_map (run U ic r2) (run U ic r1 st).
Proof. reflexivity. Qed.

Lemma find_digits_group ic n st :
  find (fun st' => is_nil (fst st')) (run U ic (Group n (Plus Digit)) st) = digits_to_end U n st.
Proof.
  destruct st as [s g]. rewrite run_group, run_plus_digit, find_map. cbn [fst snd].
  rewrite greedy_find_nil. unfold digits_to_end. cbn [fst snd].
  destruct (negb (is_nil s) && forallb (isdecimal U) s); [|reflexivity].
  cbn. rewrite Nat.sub_0_r, firstn_all. reflexivity.
Qed.

Lemma fullmatch_find ic r s :
  fullmatch U ic r s = snd <$> find (fun st => is_nil (fst st)) (run U ic r (s, [])).
Proof. reflexivity. Qed.

Lemma first_some_map {A B C} (f : B -> option C) (h : A -> B) l :
  first_some f (map h l) = first_some (fun x => f (h x)) l.
Proof. induction l as [|x l IH]; cbn; [reflexivity|]. rewrite IH. reflexivity. Qed.

Lemma first_some_fmap {A B C} (f : A -> option B) (h : B -> C) l :
  h <$> first_some f l = first_some (fun x => h <$> f x) l.
Proof. induction l as [|x l IH]; cbn; [reflexivity|]. destruct (f x); cbn; auto. Qed.

Lemma option_list_states (o : option str) :
  match o with Some s' => [(s', @nil (nat * str))] | None => [] end
  = map (fun s' => (s', [])) (option_list o).
Proof. destruct o; reflexivity. Qed.

Lemma digits_to_end_keep n s :
  snd <$> digits_to_end U n (s, []) = (fun ds => [(n, ds)]) <$> keep_digits U s.
Proof.
  unfold digits_to_end, keep_digits, digits_ok. cbn [fst snd].
  destruct (negb (is_nil s) && forallb (isdecimal U) s); reflexivity.
Qed.

Lemma fullmatch_chapter stem :
  fullmatch U true chapter_re stem = (fun ds => [(1%nat, ds)]) <$> chapter_digits U stem.
Proof.
  rewrite fullmatch_find. unfold chapter_re, chapter_digits.
  rewrite run_seq, run_lits. destruct (lits_prefix U true (py "chap") stem) as [s1|]; [|reflexivity].
  cbn [flat_map]. rewrite app_nil_r, run_seq.
  change (run U true (Alt (lits (py "ter")) (lits (py "er"))) (s1, []))
    with (run U true (lits (py "ter")) (s1, []) ++ run U true (lits (py "er")) (s1, [])).
  rewrite !run_lits, !option_list_states, <- map_app, find_flat_map.
  rewrite (first_some_ext _ (digits_to_end U 1)) by (intros; apply find_digits_group).
  rewrite first_some_map, !first_some_fmap.
  apply first_some_ext. intros s2. apply digits_to_end_keep.
Qed.

Lemma set_match_separators ch :
  set_match U true false [(hyphen, hyphen); (underscore, underscore); (space, space)] ch
  = in_ranges separators ch.
Proof. reflexivity. Qed.

Lemma fullmatch_diffusion stem :
  fullmatch U true diffusion_re stem = (fun ds => [(1%nat, ds)]) <$> diffusion_digits U stem.
Proof.
  rewrite fullmatch_find. unfold diffusion_re, diffusion_digits.
  rewrite run_seq, run_lits.
  destruct (lits_prefix U true (py "diffusion") stem) as [s1|]; [|reflexivity].
  cbn [flat_map]. rewrite app_nil_r, run_seq.
  set (seps := [(hyphen, hyphen); (underscore, underscore); (space, space)]).
  change (run U true (Opt (CharSet false seps)) (s1, []))
    with (one_char (set_match U true false seps) (s1, []) ++ [(s1, [])]).
  replace (one_char (set_match U true false seps) (s1, []))
    with (map (fun s' => (s', @nil (nat * str)))
            (match s1 with
             | ch :: s2 => if in_ranges separators ch then [s2] else []
             | [] => []
             end)).
  2:{ unfold one_char. cbn [fst snd]. destruct s1 as [|ch s2]; [reflexivity|].
      subst seps. rewrite set_match_separators.
      destruct (in_ranges separators ch); reflexivity. }
  change [(s1, @nil (nat * str))] with (map (fun s' => (s', @nil (nat * str))) [s1]).
  rewrite <- map_app, find_flat_map.
  rewrite (first_some_ext _ (digits_to_end U 1)) by (intros; apply find_digits_group).
  rewrite first_some_map, !first_some_fmap.
  apply first_some_ext. intros s2. apply digits_to_end_keep.
Qed.

End Matcher.

(** ** pretty_title *)

Section Titles.
Context (U : Unicode).

Lemma lits_prefix_spec ic w s s' :
  lits_prefix U ic w s = Some s' <->
  exists pre, s = pre ++ s' /\ Forall2 (fun c ch => lit_match U ic c ch = true) w pre.
Proof.
  revert s. induction w as [|c w IH]; intros s; cbn [lits_prefix].
  - split.
    + intros [= ->]. exists []. split; [reflexivity|constructor].
    + intros (pre & -> & Hp). inversion Hp. reflexivity.
  - destruct s as [|ch s1].
    + split; [discriminate|]. intros (pre & Hs & Hp). inversion Hp; subst. discriminate.
    + destruct (lit_match U ic c ch) eqn:Hc.
      * rewrite IH. split.
        -- intros (pre & -> & Hp). exists (ch :: pre). split; [reflexivity|]. constructor; auto.
        -- intros (pre & Hs & Hp). inversion Hp as [|? ch' ? pre' Hc' Hp']; subst.
           injection Hs as -> ->. exists pre'. auto.
      * split; [discriminate|]. intros (pre & Hs & Hp).
        inversion Hp as [|? ch' ? pre' Hc' Hp']; subst. injection Hs as -> ->. congruence.
Qed.

Lemma lits_prefix_app ic w1 w2 s :
  lits_prefix U ic (w1 ++ w2) s = lits_prefix U ic w1 s ≫= lits_prefix U ic w2.
Proof.
  revert s. induction w1 as [|c w1 IH]; intros s; [reflexivity|].
  cbn [app lits_prefix]. destruct s as [|ch s1]; [reflexivity|].
  destruct (lit_match U ic c ch); [apply IH|reflexivity].
Qed.

(** An ASCII letter other than i and s matches what lower-cases to it. *)
Lemma lit_match_letter c ch :
  is_ascii_lower c = true -> negb (c =? 105) && negb (c =? 115) = true ->
  lit_match U true c ch = (sre_lower U ch =? c).
Proof.
  intros Hl Hn. unfold is_ascii_lower in Hl.
  apply andb_true_iff in Hl as [H1 H2]. apply N.leb_le in H1, H2.
  apply andb_true_iff in Hn as [H3 H4].
  apply negb_true_iff in H3, H4.
  assert (Hlt : (c <? 128) = true) by (apply N.ltb_lt; lia).
  assert (Hup : is_ascii_upper c = false).
  { unfold is_ascii_upper. apply andb_false_iff. right. apply N.leb_gt. lia. }
  assert (Hlow : is_ascii_lower c = true).
  { unfold is_ascii_lower. apply andb_true_iff; split; apply N.leb_le; lia. }
  assert (El : sre_lower U c = c).
  { unfold sre_lower, ascii_tolower. rewrite Hlt, Hup. reflexivity. }
  assert (Eu : sre_upper U c = c - 32).
  { unfold sre_upper, ascii_toupper. rewrite Hlt, Hlow. reflexivity. }
  assert (Ef : casefix U c = []).
  { unfold casefix. rewrite Hlt, H3, H4. reflexivity. }
  unfold lit_match, folded, iscased. rewrite El, Eu, Ef. cbn [existsb].
  replace (c =? c - 32) with false by (symmetry; apply N.eqb_neq; lia).
  rewrite N.eqb_refl. cbn. rewrite orb_false_r. reflexivity.
Qed.

Lemma lit_match_excl c c' ch :
  is_ascii_lower c = true -> negb (c =? 105) && negb (c =? 115) = true ->
  is_ascii_lower c' = true -> negb (c' =? 105) && negb (c' =? 115) = true ->
  c <> c' -> lit_match U true c ch = true -> lit_match U true c' ch = false.
Proof.
  intros H1 H2 H3 H4 Hne. rewrite !lit_match_letter by assumption.
  intros E%N.eqb_eq. apply N.eqb_neq. congruence.
Qed.

Lemma forallb_Forall {A} (p : A -> bool) l :
  forallb p l = true <-> Forall (fun c => p c = true) l.
Proof.
  induction l as [|x l IH]; cbn; [split; auto|].
  rewrite andb_true_iff, IH, Forall_cons. tauto.
Qed.

Lemma digits_ok_spec ds : digits_ok U ds = true <-> decimal_digits U ds.
Proof.
  unfold digits_ok, decimal_digits. rewrite andb_true_iff, forallb_Forall.
  destruct ds; cbn; split; intros [H1 H2]; split; done.
Qed.

Lemma keep_digits_spec s ds : keep_digits U s = Some ds <-> s = ds /\ decimal_digits U ds.
Proof.
  unfold keep_digits. destruct (digits_ok U s) eqn:E.
  - apply digits_ok_spec in E. split; [intros [= <-]; auto|intros [-> _]; reflexivity].
  - split; [discriminate|]. intros [-> Hd%digits_ok_spec]. congruence.
Qed.

Lemma first_some_In {A B} (f : A -> option B) l y :
  first_some f l = Some y -> exists x, In x l /\ f x = Some y.
Proof.
  induction l as [|x l IH]; cbn; [discriminate|].
  destruct (f x) eqn:E.
  - intros [= <-]. eauto.
  - intros (x' & ? & ?)%IH. eauto.
Qed.

Lemma chapter_digits_spec stem ds :
  chapter_digits U stem = Some ds <-> matches_chapter U stem ds.
Proof.
  unfold chapter_digits, matches_chapter. split.
  - destruct (lits_prefix U true (py "chap") stem) as [s1|] eqn:E1; [|discriminate].
    intros (s2 & Hin & (-> & Hd)%keep_digits_spec)%first_some_In.
    apply in_app_iff in Hin as [Hin|Hin].
    + destruct (lits_prefix U true (py "ter") s1) as [s2|] eqn:E2; [|destruct Hin].
      destruct Hin as [->|[]].
      assert (E : lits_prefix U true (py "chap" ++ py "ter") stem = Some ds)
        by (rewrite lits_prefix_app, E1; exact E2).
      apply lits_prefix_spec in E as (pre & -> & Hp). exists pre. auto.
    + destruct (lits_prefix U true (py "er") s1) as [s2|] eqn:E2; [|destruct Hin].
      destruct Hin as [->|[]].
      assert (E : lits_prefix U true (py "chap" ++ py "er") stem = Some ds)
        by (rewrite lits_prefix_app, E1; exact E2).
      apply lits_prefix_spec in E as (pre & -> & Hp). exists pre. auto.
  - intros (pre & -> & [Hp|Hp] & Hd).
    + assert (E : lits_prefix U true (py "chap" ++ py "ter") (pre ++ ds) = Some ds)
        by (apply lits_prefix_spec; eauto).
      rewrite lits_prefix_app in E.
      destruct (lits_prefix U true (py "chap") (pre ++ ds)) as [s1|]; [|discriminate].
      cbn [mbind option_bind] in E. rewrite E. cbn [option_list app first_some].
      assert (K : keep_digits U ds = Some ds) by (apply keep_digits_spec; auto).
      rewrite K. reflexivity.
    + assert (E : lits_prefix U true (py "chap" ++ py "er") (pre ++ ds) = Some ds)
        by (apply lits_prefix_spec; eauto).
      rewrite lits_prefix_app in E.
      destruct (lits_prefix U true (py "chap") (pre ++ ds)) as [s1|]; [|discriminate].
      cbn [mbind option_bind] in E. rewrite E.
      assert (E' : lits_prefix U true (py "ter") s1 = None).
      { change (py "er") with (101 :: py "r") in E. change (py "ter") with (116 :: py "er").
        cbn [lits_prefix] in E |- *. destruct s1 as [|ch s2]; [reflexivity|].
        destruct (lit_match U true 101 ch) eqn:Hc; [|discriminate].
        rewrite (lit_match_excl 101 116 ch); auto; lia. }
      rewrite E'. cbn [option_list app first_some].
      assert (K : keep_digits U ds = Some ds) by (apply keep_digits_spec; auto).
      rewrite K. reflexivity.
Qed.

Lemma in_separators ch :
  in_ranges separators ch = true <-> ch = hyphen \/ ch = underscore \/ ch = space.
Proof.
  unfold in_ranges, separators, hyphen, underscore, space. cbn [existsb fst snd].
  rewrite !orb_true_iff, !andb_true_iff, !N.leb_le. lia.
Qed.

Lemma separator_not_decimal ch : in_ranges separators ch = true -> isdecimal U ch = false.
Proof. intros [->|[->| ->]]%in_separators; reflexivity. Qed.

Lemma diffusion_digits_spec stem ds :
  diffusion_digits U stem = Some ds <-> matches_diffusion U stem ds.
Proof.
  unfold diffusion_digits, matches_diffusion. split.
  - destruct (lits_prefix U true (py "diffusion") stem) as [s1|] eqn:E1; [|discriminate].
    apply lits_prefix_spec in E1 as (pre & -> & Hp).
    intros (s2 & Hin & (-> & Hd)%keep_digits_spec)%first_some_In.
    apply in_app_iff in Hin as [Hin|[->|[]]].
    + destruct s1 as [|ch s2]; [destruct Hin|].
      destruct (in_ranges separators ch) eqn:Hs; [|destruct Hin].
      destruct Hin as [->|[]]. exists pre, [ch]. split; [reflexivity|].
      apply in_separators in Hs. repeat split; try apply Hd; auto.
      destruct Hs as [->|[->| ->]]; auto.
    + exists pre, []. repeat split; try apply Hd; auto.
  - intros (pre & sep & -> & Hp & Hsep & Hd).
    assert (E : lits_prefix U true (py "diffusion") (pre ++ sep ++ ds) = Some (sep ++ ds))
      by (apply lits_prefix_spec; eauto).
    rewrite E.
    assert (K : keep_digits U ds = Some ds) by (apply keep_digits_spec; auto).
    destruct Hsep as [->|Hsep].
    + cbn [app]. destruct ds as [|ch s2]; [destruct Hd; congruence|].
      destruct (in_ranges separators ch) eqn:Hs.
      * apply separator_not_decimal in Hs. destruct Hd as [_ Hd].
        apply Forall_cons in Hd as [Hd _]. congruence.
      * cbn [app first_some]. rewrite K. reflexivity.
    + assert (exists c, sep = [c] /\ in_ranges separators c = true) as (c & -> & Hc).
      { destruct Hsep as [->|[->| ->]]; eexists; split; try reflexivity;
          apply in_separators; auto. }
      cbn [app]. rewrite Hc. cbn [app first_some]. rewrite K. reflexivity.
Qed.

Lemma foldM_digits ds acc :
  Forall (fun c => isdecimal U c = true) ds ->
  foldM (fun acc c => d ← of_option ValueError (decimal_value U c); Ok (10 * acc + d)) acc ds
  = Ok (fold_left (fun acc c => 10 * acc + default 0 (decimal_value U c)) ds acc).
Proof.
  intros Hd. revert acc. induction Hd as [|c ds Hc Hd IH]; intros acc; [reflexivity|].
  cbn [foldM fold_left]. unfold isdecimal in Hc.
  destruct (decimal_value U c) as [d|]; [|discriminate]. cbn. apply IH.
Qed.

Lemma py_int_digits ds :
  decimal_digits U ds -> (length ds <= int_max_str_digits)%nat ->
  py_int U ds = Ok (int_value U ds).
Proof.
  intros [Hne Hd] Hlen. unfold py_int, int_value. destruct ds as [|d ds]; [congruence|].
  replace (int_max_str_digits <? length (d :: ds))%nat with false
    by (symmetry; apply Nat.ltb_ge; exact Hlen).
  apply foldM_digits, Hd.
Qed.

(** A numeral of more digits than the limit is refused. *)
Lemma py_int_long ds :
  (int_max_str_digits < length ds)%nat -> py_int U ds = Raise ValueError.
Proof.
  intros Hlen. unfold py_int. destruct ds as [|d ds]; [reflexivity|].
  replace (int_max_str_digits <? length (d :: ds))%nat with true
    by (symmetry; apply Nat.ltb_lt; exact Hlen).
  reflexivity.
Qed.

(** Leading zeros do not count. *)
Lemma int_value_zero ds : int_value U (48 :: ds) = int_value U ds.
Proof. reflexivity. Qed.

Lemma pretty_title_chapter_int stem ds :
  matches_chapter U stem ds ->
  pretty_title U stem
  = n ← py_int U ds; Ok ([0x7B2C] ++ py_str n ++ [0x7AE0]).
Proof.
  intros Hm. apply chapter_digits_spec in Hm.
  unfold pretty_title. rewrite fullmatch_chapter, Hm. cbn [fmap option_fmap option_map].
  unfold int_group1. cbn [group find fst snd Nat.eqb fmap option_fmap option_map of_option].
  cbn [mbind res_bind]. reflexivity.
Qed.

Lemma pretty_title_chapter stem ds :
  matches_chapter U stem ds -> (length ds <= int_max_str_digits)%nat ->
  pretty_title U stem = Ok ([0x7B2C] ++ py_str (int_value U ds) ++ [0x7AE0]).
Proof.
  intros Hm Hlen. rewrite (pretty_title_chapter_int _ _ Hm).
  destruct Hm as (pre & _ & _ & Hd). rewrite (py_int_digits ds Hd Hlen). reflexivity.
Qed.

Lemma pretty_title_chapter_long stem ds :
  matches_chapter U stem ds -> (int_max_str_digits < length ds)%nat ->
  pretty_title U stem = Raise ValueError.
Proof.
  intros Hm Hlen. rewrite (pretty_title_chapter_int _ _ Hm), (py_int_long ds Hlen).
  reflexivity.
Qed.

Lemma diffusion_not_chapter stem ds :
  matches_diffusion U stem ds -> chapter_digits U stem = None.
Proof.
  intros (pre & sep & -> & Hp & _). unfold chapter_digits.
  change (py "diffusion") with (100 :: py "iffusion") in Hp.
  inversion Hp as [|? ch ? pre' Hc Hp']; subst.
  change (py "chap") with (99 :: py "hap"). cbn [app lits_prefix].
  rewrite (lit_match_excl 100 99 ch); auto; lia.
Qed.

Lemma pretty_title_diffusion_int stem ds :
  matches_diffusion U stem ds ->
  pretty_title U stem = n ← py_int U ds; Ok (py "Diffusion " ++ py_str n).
Proof.
  intros Hm.
  pose proof (diffusion_not_chapter _ _ Hm) as Hc. apply diffusion_digits_spec in Hm.
  unfold pretty_title. rewrite fullmatch_chapter, Hc, fullmatch_diffusion, Hm.
  cbn [fmap option_fmap option_map].
  unfold int_group1. cbn [group find fst snd Nat.eqb fmap option_fmap option_map of_option].
  cbn [mbind res_bind]. reflexivity.
Qed.

Lemma pretty_title_diffusion stem ds :
  matches_diffusion U stem ds -> (length ds <= int_max_str_digits)%nat ->
  pretty_title U stem = Ok (py "Diffusion " ++ py_str (int_value U ds)).
Proof.
  intros Hm Hlen. rewrite (pretty_title_diffusion_int _ _ Hm).
  destruct Hm as (pre & sep & _ & _ & _ & Hd). rewrite (py_int_digits ds Hd Hlen).
  reflexivity.
Qed.

Lemma pretty_title_diffusion_long stem ds :
  matches_diffusion U stem ds -> (int_max_str_digits < length ds)%nat ->
  pretty_title U stem = Raise ValueError.
Proof.
  intros Hm Hlen. rewrite (pretty_title_diffusion_int _ _ Hm), (py_int_long ds Hlen).
  reflexivity.
Qed.

Lemma py_upper_app s t : py_upper U (s ++ t) = py_upper U s ++ py_upper U t.
Proof. unfold py_upper. rewrite map_app, concat_app. reflexivity. Qed.

Lemma upper_ends_in_digit stem ds :
  digits_uncased U -> decimal_digits U ds -> py_upper U (stem ++ ds) <> py "VAE".
Proof.
  intros Hu [Hne Hd] E.
  destruct (exists_last Hne) as (ds' & d & ->).
  apply Forall_app in Hd as [_ Hd]. apply Forall_cons in Hd as [Hd _].
  rewrite app_assoc, py_upper_app, (Hu d Hd) in E.
  change (py "VAE") with ([86; 65] ++ [69]) in E.
  apply app_inj_tail in E as [_ ->]. discriminate.
Qed.

Lemma pretty_title_VAE stem :
  digits_uncased U -> py_upper U stem = py "VAE" -> pretty_title U stem = Ok (py "VAE").
Proof.
  intros Hu E. unfold pretty_title. rewrite fullmatch_chapter, fullmatch_diffusion.
  destruct (chapter_digits U stem) as [ds|] eqn:Hc.
  { apply chapter_digits_spec in Hc as (pre & -> & _ & Hd).
    destruct (upper_ends_in_digit pre ds Hu Hd E). }
  destruct (diffusion_digits U stem) as [ds|] eqn:Hf.
  { apply diffusion_digits_spec in Hf as (pre & sep & -> & _ & _ & Hd).
    rewrite app_assoc in E. destruct (upper_ends_in_digit _ ds Hu Hd E). }
  cbn [fmap option_fmap option_map]. unfold str_eqb. rewrite bool_decide_eq_true_2 by exact E.
  reflexivity.
Qed.

Lemma pretty_title_default stem :
  (forall ds, ~ matches_chapter U stem ds) ->
  (forall ds, ~ matches_diffusion U stem ds) ->
  py_upper U stem <> py "VAE" ->
  pretty_title U stem
  = Ok (strip is_space (replace hyphen space (replace underscore space stem))).
Proof.
  intros Hc Hf Hv. unfold pretty_title. rewrite fullmatch_chapter, fullmatch_diffusion.
  destruct (chapter_digits U stem) as [ds|] eqn:E1.
  { apply chapter_digits_spec in E1. destruct (Hc ds E1). }
  destruct (diffusion_digits U stem) as [ds|] eqn:E2.
  { apply diffusion_digits_spec in E2. destruct (Hf ds E2). }
  cbn [fmap option_fmap option_map]. unfold str_eqb.
  rewrite bool_decide_eq_false_2 by exact Hv. reflexivity.
Qed.

(** [pretty_title] returns a title, or raises [ValueError] for a numeral that
    is too long. *)
Lemma pretty_title_outcome stem :
  (exists t, pretty_title U stem = Ok t)
  \/ (pretty_title U stem = Raise ValueError
      /\ exists ds, (matches_chapter U stem ds \/ matches_diffusion U stem ds)
           /\ (int_max_str_digits < length ds)%nat).
Proof.
  destruct (chapter_digits U stem) as [ds|] eqn:E1.
  { apply chapter_digits_spec in E1.
    destruct (Nat.le_gt_cases (length ds) int_max_str_digits) as [Hlen|Hlen].
    - left. rewrite (pretty_title_chapter _ _ E1 Hlen). eauto.
    - right. split; [exact (pretty_title_chapter_long _ _ E1 Hlen)|eauto]. }
  destruct (diffusion_digits U stem) as [ds|] eqn:E2.
  { apply diffusion_digits_spec in E2.
    destruct (Nat.le_gt_cases (length ds) int_max_str_digits) as [Hlen|Hlen].
    - left. rewrite (pretty_title_diffusion _ _ E2 Hlen). eauto.
    - right. split; [exact (pretty_title_diffusion_long _ _ E2 Hlen)|eauto]. }
  left. unfold pretty_title. rewrite fullmatch_chapter, fullmatch_diffusion, E1, E2.
  cbn [fmap option_fmap option_map]. destruct (str_eqb _ _); eauto.
Qed.

Lemma matches_length stem ds :
  matches_chapter U stem ds \/ matches_diffusion U stem ds -> (length ds <= length stem)%nat.
Proof.
  intros [(pre & -> & _)|(pre & sep & -> & _)]; rewrite !length_app; lia.
Qed.

(** [pretty_title] raises nothing on a stem within the limit of [int]. *)
Lemma pretty_title_total stem :
  (length stem <= int_max_str_digits)%nat -> exists t, pretty_title U stem = Ok t.
Proof.
  intros Hlen. destruct (pretty_title_outcome stem) as [H|(_ & ds & Hm & Hlong)]; [exact H|].
  apply matches_length in Hm. lia.
Qed.

Lemma pretty_title_raise stem e :
  pretty_title U stem = Raise e ->
  e = ValueError /\ (int_max_str_digits < length stem)%nat.
Proof.
  intros Hr. destruct (pretty_title_outcome stem) as [(t & Ht)|(Hv & ds & Hm & Hlong)];
    [congruence|].
  split; [congruence|]. apply matches_length in Hm. lia.
Qed.

End Titles.

(** ** Stripping *)

Lemma lstrip_split p s : exists u, s = u ++ lstrip p s /\ Forall (fun c => p c = true) u.
Proof.
  induction s as [|c s IH]; [exists []; auto|].
  cbn [lstrip]. destruct (p c) eqn:Hc.
  - destruct IH as (u & E & Hu). exists (c :: u). split; [cbn; congruence|auto].
  - exists []. auto.
Qed.

Lemma lstrip_head p s c : head (lstrip p s) = Some c -> p c = false.
Proof.
  induction s as [|a s IH]; [discriminate|].
  cbn [lstrip]. destruct (p a) eqn:Ha; [exact IH|]. intros [= <-]. exact Ha.
Qed.

Lemma lstrip_length p s : (length (lstrip p s) <= length s)%nat.
Proof. induction s as [|c s IH]; cbn; [lia|]. destruct (p c); cbn; lia. Qed.

Lemma rstrip_split p s : exists u, s = rstrip p s ++ u /\ Forall (fun c => p c = true) u.
Proof.
  unfold rstrip. destruct (lstrip_split p (rev s)) as (u & E & Hu).
  exists (rev u). split.
  - rewrite <- rev_app_distr, <- E, rev_involutive. reflexivity.
  - apply Forall_rev, Hu.
Qed.

Lemma last_rev_head {A} (l : list A) : last (rev l) = head l.
Proof. destruct l as [|x l]; [reflexivity|]. cbn. apply last_snoc. Qed.

Lemma rstrip_last p s c : last (rstrip p s) = Some c -> p c = false.
Proof. unfold rstrip. rewrite last_rev_head. apply lstrip_head. Qed.

Lemma strip_last p s c : last (strip p s) = Some c -> p c = false.
Proof. apply rstrip_last. Qed.

Lemma strip_head p s c : head (strip p s) = Some c -> p c = false.
Proof.
  unfold strip. destruct (rstrip_split p (lstrip p s)) as (u & E & _).
  destruct (rstrip p (lstrip p s)) as [|a r]; [discriminate|].
  intros [= ->]. apply (lstrip_head p s). rewrite E. reflexivity.
Qed.

Lemma strip_Forall (P : char -> Prop) p s : Forall P s -> Forall P (strip p s).
Proof.
  intros Hs. unfold strip.
  destruct (lstrip_split p s) as (u & E & _).
  destruct (rstrip_split p (lstrip p s)) as (v & E' & _).
  rewrite E, E' in Hs. apply Forall_app in Hs as [_ Hs]. apply Forall_app in Hs as [Hs _].
  exact Hs.
Qed.

(** A leading character that is kept stays in front. *)
Lemma strip_cons p c s : p c = false -> exists t, strip p (c :: s) = c :: t.
Proof.
  intros Hc. unfold strip. cbn [lstrip]. rewrite Hc.
  destruct (rstrip_split p (c :: s)) as (u & E & Hu).
  destruct (rstrip p (c :: s)) as [|a r].
  - cbn in E. subst u. apply Forall_cons in Hu as [Hu _]. congruence.
  - injection E as <- _. eauto.
Qed.

Lemma strip_infix p s :
  exists a b, s = a ++ strip p s ++ b
    /\ Forall (fun c => p c = true) a /\ Forall (fun c => p c = true) b.
Proof.
  destruct (lstrip_split p s) as (a & Ea & Ha).
  destruct (rstrip_split p (lstrip p s)) as (b & Eb & Hb).
  exists a, b. split; [|split; assumption]. unfold strip. rewrite <- Eb. exact Ea.
Qed.

(** ** White space *)

(** [str.isspace] holds of the code points of [white_space] and of no other. *)
Lemma is_space_white c : is_space c = true <-> c ∈ white_space.
Proof.
  split.
  - unfold is_space. rewrite !orb_true_iff, !andb_true_iff, !N.leb_le, !N.eqb_eq.
    intros H.
    assert (E : c = 0x09 \/ c = 0x0A \/ c = 0x0B \/ c = 0x0C \/ c = 0x0D \/ c = 0x1C
                \/ c = 0x1D \/ c = 0x1E \/ c = 0x1F \/ c = 0x20 \/ c = 0x85 \/ c = 0xA0
                \/ c = 0x1680 \/ c = 0x2000 \/ c = 0x2001 \/ c = 0x2002 \/ c = 0x2003
                \/ c = 0x2004 \/ c = 0x2005 \/ c = 0x2006 \/ c = 0x2007 \/ c = 0x2008
                \/ c = 0x2009 \/ c = 0x200A \/ c = 0x2028 \/ c = 0x2029 \/ c = 0x202F
                \/ c = 0x205F \/ c = 0x3000) by lia.
    unfold white_space. rewrite !elem_of_cons. tauto.
  - revert c. apply Forall_forall. unfold white_space.
    repeat (constructor; [reflexivity|]). constructor.
Qed.

Lemma strip_trimmed s : trimmed s (strip is_space s).
Proof.
  destruct (strip_infix is_space s) as (a & b & E & Ha & Hb).
  exists a, b. split; [exact E|].
  split; [eapply Forall_impl; [exact Ha|]; intros c; apply is_space_white|].
  split; [eapply Forall_impl; [exact Hb|]; intros c; apply is_space_white|].
  split; intros c Hc Hw; apply is_space_white in Hw.
  - apply strip_head in Hc. congruence.
  - apply strip_last in Hc. congruence.
Qed.

Lemma white_prefix_unique (a a' x x' : str) :
  a ++ x = a' ++ x' ->
  Forall (fun c => c ∈ white_space) a -> Forall (fun c => c ∈ white_space) a' ->
  (exists c, head x = Some c /\ c ∉ white_space) ->
  (exists c, head x' = Some c /\ c ∉ white_space) ->
  a = a' /\ x = x'.
Proof.
  revert a'. induction a as [|c a IH]; intros a' E Ha Ha' Hx Hx'.
  - destruct a' as [|c' a']; [auto|]. cbn in E. subst x.
    destruct Hx as (c & [= <-] & Hc). apply Forall_cons in Ha' as [Hc' _]. contradiction.
  - destruct a' as [|c' a'].
    + cbn in E. subst x'. destruct Hx' as (c' & [= <-] & Hc').
      apply Forall_cons in Ha as [Hc _]. contradiction.
    + cbn in E. injection E as <- E. apply Forall_cons in Ha as [_ Ha], Ha' as [_ Ha'].
      destruct (IH a' E Ha Ha' Hx Hx') as [-> ->]. auto.
Qed.

(** What is left of a string without the white space at its ends is unique. *)
Lemma trimmed_unique s t t' : trimmed s t -> trimmed s t' -> t = t'.
Proof.
  assert (Hnil : forall s t', trimmed s [] -> trimmed s t' -> t' = []).
  { clear. intros s t' (a & b & -> & Ha & Hb & _) (a' & b' & E & _ & _ & Hh & _).
    destruct t' as [|c t']; [reflexivity|]. exfalso. apply (Hh c eq_refl).
    cbn [app] in E. assert (Hc : c ∈ a ++ b) by (rewrite E; set_solver).
    apply elem_of_app in Hc as [Hc|Hc]; [rewrite Forall_forall in Ha|rewrite Forall_forall in Hb];
      auto. }
  intros H H'. destruct t as [|c t]; [symmetry; exact (Hnil s t' H H')|].
  destruct t' as [|c' t']; [exact (Hnil s _ H' H)|].
  destruct H as (a & b & E & Ha & Hb & Hh & Hl), H' as (a' & b' & E' & Ha' & Hb' & Hh' & Hl').
  destruct (white_prefix_unique a a' ((c :: t) ++ b) ((c' :: t') ++ b')) as [-> Et];
    [congruence|assumption|assumption|exists c; auto|exists c'; auto|].
  assert (Er : rev b ++ rev (c :: t) = rev b' ++ rev (c' :: t'))
    by (rewrite <- !rev_app_distr; congruence).
  destruct (white_prefix_unique (rev b) (rev b') (rev (c :: t)) (rev (c' :: t')) Er)
    as [_ Erev].
  - apply Forall_rev, Hb.
  - apply Forall_rev, Hb'.
  - destruct (last (c :: t)) as [d|] eqn:Hd; [|apply last_None in Hd; discriminate].
    exists d. split; [|exact (Hl d eq_refl)].
    rewrite <- (rev_involutive (c :: t)) in Hd. rewrite last_rev_head in Hd. exact Hd.
  - destruct (last (c' :: t')) as [d|] eqn:Hd; [|apply last_None in Hd; discriminate].
    exists d. split; [|exact (Hl' d eq_refl)].
    rewrite <- (rev_involutive (c' :: t')) in Hd. rewrite last_rev_head in Hd. exact Hd.
  - apply (f_equal (@rev _)) in Erev. rewrite !rev_involutive in Erev. exact Erev.
Qed.

Lemma spaced_replace s : replace hyphen space (replace underscore space s) = spaced s.
Proof.
  unfold replace, spaced. rewrite map_map. apply map_ext. intros c.
  destruct (c =? underscore) eqn:E1.
  - apply N.eqb_eq in E1. rewrite bool_decide_eq_true_2 by auto. reflexivity.
  - destruct (c =? hyphen) eqn:E2.
    + apply N.eqb_eq in E2. rewrite bool_decide_eq_true_2 by auto. reflexivity.
    + apply N.eqb_neq in E1, E2. rewrite bool_decide_eq_false_2 by tauto. reflexivity.
Qed.

(** ** Slugs *)

Lemma collapse_in_run s : collapse_aux true s = collapse (lstrip nonalnum s).
Proof.
  induction s as [|c s IH]; [reflexivity|].
  cbn [collapse_aux lstrip]. unfold nonalnum at 1. destruct (is_alnum c) eqn:Hc; cbn [negb].
  - unfold collapse. cbn [collapse_aux]. rewrite Hc. reflexivity.
  - exact IH.
Qed.

Lemma collapse_chars b s : Forall slug_char (collapse_aux b s).
Proof.
  revert b. induction s as [|c s IH]; intros b; cbn [collapse_aux]; [constructor|].
  destruct (is_alnum c) eqn:Hc.
  - constructor; [left; exact Hc|apply IH].
  - destruct b; [apply IH|]. constructor; [right; reflexivity|apply IH].
Qed.

Section Slug.
Context (U : Unicode).

Lemma set_match_plain negate ranges ch :
  set_match U false negate ranges ch = xorb negate (in_ranges ranges ch).
Proof. reflexivity. Qed.

Lemma run_nonalnum s g :
  run U false nonalnum_re (s, g) = greedy nonalnum s g.
Proof.
  unfold nonalnum_re. cbn [run fst].
  rewrite <- (plus_loop_one_char nonalnum (S (length s)) s g) by lia.
  reflexivity.
Qed.

Lemma sub_loop_nonalnum fuel s :
  (length s <= fuel)%nat ->
  sub_loop U nonalnum_re [TText (py "-")] fuel s = collapse s.
Proof.
  revert s. induction fuel as [|n IH]; intros s Hlen.
  { destruct s; [reflexivity|cbn in Hlen; lia]. }
  destruct s as [|c s']; [reflexivity|].
  cbn [sub_loop]. rewrite run_nonalnum, greedy_head.
  unfold collapse. cbn [collapse_aux]. unfold nonalnum at 1.
  destruct (is_alnum c) eqn:Hc; cbn [negb].
  - rewrite IH by (cbn in Hlen; lia). reflexivity.
  - pose proof (lstrip_length nonalnum s') as Hl.
    replace (length (lstrip nonalnum s') <? length (c :: s'))%nat with true
      by (symmetry; apply Nat.ltb_lt; cbn; lia).
    rewrite IH by (cbn in Hlen; lia). rewrite collapse_in_run. reflexivity.
Qed.

Lemma re_sub_nonalnum s : re_sub U nonalnum_re [TText (py "-")] s = collapse s.
Proof. apply sub_loop_nonalnum. lia. Qed.

Lemma slug_collapse s : slug U s = strip is_hyphen (collapse s).
Proof. unfold slug. rewrite re_sub_nonalnum. reflexivity. Qed.

Lemma slug_chars s : Forall slug_char (slug U s).
Proof. rewrite slug_collapse. apply strip_Forall, collapse_chars. Qed.

Lemma slug_head s : head (slug U s) <> Some hyphen.
Proof. rewrite slug_collapse. intros E%strip_head. discriminate. Qed.

Lemma slug_last s : last (slug U s) <> Some hyphen.
Proof. rewrite slug_collapse. intros E%strip_last. discriminate. Qed.

(** A slug is good as soon as it is not empty. *)
Lemma slug_good s : slug U s <> [] -> good_slug (slug U s).
Proof. intros Hne. repeat split; auto using slug_chars, slug_head, slug_last. Qed.

(** What starts with a character of [a-z0-9] has a non-empty slug. *)
Lemma slug_cons c s : is_alnum c = true -> slug U (c :: s) <> [].
Proof.
  intros Hc. rewrite slug_collapse. unfold collapse. cbn [collapse_aux]. rewrite Hc.
  destruct (strip_cons is_hyphen c (collapse_aux false s)) as (t & ->); [|discriminate].
  unfold is_hyphen, hyphen. apply N.eqb_neq. intros ->. discriminate.
Qed.

End Slug.

(** ** Decimal numerals *)

Lemma is_alnum_spec c :
  is_alnum c = true <-> (97 <= c <= 122) \/ (48 <= c <= 57).
Proof.
  unfold is_alnum, in_ranges, alnum_ranges. cbn [existsb fst snd].
  rewrite !orb_true_iff, !andb_true_iff, !N.leb_le. intuition discriminate.
Qed.

Lemma uint_chars_alnum d : Forall (fun c => is_alnum c = true) (uint_chars d).
Proof.
  induction d; cbn [uint_chars]; constructor; auto; apply is_alnum_spec; lia.
Qed.

Lemma uint_chars_inj d d' : uint_chars d = uint_chars d' -> d = d'.
Proof.
  revert d'. induction d; intros d' E; destruct d'; cbn in E; try discriminate;
    try reflexivity; injection E as E; f_equal; auto.
Qed.

Lemma py_str_alnum n : Forall (fun c => is_alnum c = true) (py_str n).
Proof. apply uint_chars_alnum. Qed.

Lemma py_str_inj n n' : py_str n = py_str n' -> n = n'.
Proof. intros E%uint_chars_inj. apply DecimalN.Unsigned.to_uint_inj, E. Qed.

Lemma py_str_nonempty n : py_str n <> [].
Proof.
  unfold py_str. destruct n as [|p]; [discriminate|].
  cbn [N.to_uint]. pose proof (DecimalPos.Unsigned.to_uint_nonnil p) as Hn.
  destruct (Pos.to_uint p); [congruence|discriminate..].
Qed.

(** ** Building good slugs *)

Lemma alnum_not_hyphen c : is_alnum c = true -> c <> hyphen.
Proof. intros Hc%is_alnum_spec ->. unfold hyphen in Hc. lia. Qed.

Lemma good_slug_suffix s t :
  good_slug s -> t <> [] -> Forall (fun c => is_alnum c = true) t ->
  good_slug (s ++ py "-" ++ t).
Proof.
  intros (Hne & Hc & Hh & Hl) Ht Ha. repeat split.
  - destruct s; [congruence|discriminate].
  - apply Forall_app. split; [exact Hc|]. apply Forall_app. split.
    + constructor; [right; reflexivity|constructor].
    + eapply Forall_impl; [exact Ha|]. intros c Hx. left. exact Hx.
  - destruct s; [congruence|exact Hh].
  - destruct (exists_last Ht) as (t' & c & ->).
    apply Forall_app in Ha as [_ Ha]. apply Forall_cons in Ha as [Ha _].
    rewrite !app_assoc, last_snoc. intros [= ->]. exact (alnum_not_hyphen _ Ha eq_refl).
Qed.

(** ** MD5 *)

Lemma hexdigit_alnum n : is_alnum (MD5.hexdigit n) = true.
Proof.
  unfold MD5.hexdigit. cbv zeta. pose proof (N.mod_upper_bound n 16 ltac:(lia)) as Hb.
  revert Hb. generalize (n mod 16). intros m Hb.
  destruct (m <? 10) eqn:E; apply is_alnum_spec.
  - apply N.ltb_lt in E. lia.
  - apply N.ltb_ge in E. lia.
Qed.

Lemma le_bytes_length n x : length (MD5.le_bytes n x) = n.
Proof. revert x. induction n as [|n IH]; intros x; cbn; [reflexivity|]. rewrite IH. reflexivity. Qed.

Lemma digest_length msg : length (MD5.digest msg) = 16%nat.
Proof.
  unfold MD5.digest. destruct (fold_left _ _ _) as [[[a b] c] d].
  rewrite !length_app, !le_bytes_length. reflexivity.
Qed.

Lemma hexdigest_alnum msg : Forall (fun c => is_alnum c = true) (MD5.hexdigest msg).
Proof.
  unfold MD5.hexdigest. induction (MD5.digest msg) as [|b bs IH]; cbn; [constructor|].
  constructor; [apply hexdigit_alnum|]. constructor; [apply hexdigit_alnum|exact IH].
Qed.

Lemma hexdigest_length msg : length (MD5.hexdigest msg) = 32%nat.
Proof.
  unfold MD5.hexdigest. pose proof (digest_length msg) as Hl.
  revert Hl. generalize (MD5.digest msg) as bs. intros bs.
  do 17 (destruct bs as [|? bs]; try discriminate). reflexivity.
Qed.

(** ** slugify_category_key *)

Lemma encode_utf8_ok s :
  Forall (fun c => surrogate c = false) s -> exists bs, encode_utf8 s = Ok bs.
Proof.
  induction 1 as [|c s Hc Hs (bs & IH)]; [eexists; reflexivity|].
  cbn [encode_utf8]. unfold encode_char. fold (surrogate c). rewrite Hc, IH.
  destruct (c <? 128), (c <? 2048), (c <? 65536); eexists; reflexivity.
Qed.

Lemma encode_utf8_surrogate s :
  Exists (fun c => surrogate c = true) s -> encode_utf8 s = Raise UnicodeEncodeError.
Proof.
  induction 1 as [c s Hc|c s Hs IH]; cbn [encode_utf8].
  - unfold encode_char. fold (surrogate c). rewrite Hc.
    unfold surrogate in Hc. apply andb_true_iff in Hc as [H1%N.leb_le H2%N.leb_le].
    replace (c <? 128) with false by (symmetry; apply N.ltb_ge; lia).
    replace (c <? 2048) with false by (symmetry; apply N.ltb_ge; lia).
    reflexivity.
  - rewrite IH. unfold encode_char.
    destruct (c <? 128), (c <? 2048), ((55296 <=? c) && (c <=? 57343)), (c <? 65536);
      reflexivity.
Qed.

Section Keys.
Context (U : Unicode).

Lemma fallback_good bs : good_slug (py "cat-" ++ take 8 (MD5.hexdigest bs)).
Proof.
  change (py "cat-" ++ take 8 (MD5.hexdigest bs))
    with (py "cat" ++ py "-" ++ take 8 (MD5.hexdigest bs)).
  apply good_slug_suffix.
  - repeat split; try discriminate. repeat constructor; left; reflexivity.
  - intros E. apply (f_equal length) in E. rewrite length_take, hexdigest_length in E.
    discriminate.
  - apply Forall_take, hexdigest_alnum.
Qed.

(** Whatever [slugify_category_key] returns is a good slug. *)
Lemma slugify_good name k : slugify_category_key U name = Ok k -> good_slug k.
Proof.
  unfold slugify_category_key. destruct (slug U (py_lower U name)) as [|c s] eqn:E.
  - destruct (encode_utf8 name) as [bs|]; [|discriminate].
    cbn. intros [= <-]. apply fallback_good.
  - intros [= <-]. rewrite <- E. apply slug_good. rewrite E. discriminate.
Qed.

(** It raises on exactly the names whose slug is empty and that hold a
    surrogate. *)
Lemma slugify_ok name :
  slug U (py_lower U name) <> [] \/ Forall (fun c => surrogate c = false) name ->
  exists k, slugify_category_key U name = Ok k.
Proof.
  unfold slugify_category_key. destruct (slug U (py_lower U name)) as [|c s] eqn:E.
  - intros [Hne|Hs]; [congruence|].
    destruct (encode_utf8_ok name Hs) as (bs & ->). eexists; reflexivity.
  - eauto.
Qed.

Lemma slugify_raises name :
  slug U (py_lower U name) = [] -> Exists (fun c => surrogate c = true) name ->
  slugify_category_key U name = Raise UnicodeEncodeError.
Proof.
  intros E Hs. unfold slugify_category_key. rewrite E, (encode_utf8_surrogate name Hs).
  reflexivity.
Qed.

End Keys.

(** ** Orders *)

Lemma str_ltb_irrefl s : str_ltb s s = false.
Proof.
  induction s as [|a s IH]; [reflexivity|].
  cbn [str_ltb]. rewrite N.ltb_irrefl, N.eqb_refl, IH. reflexivity.
Qed.

Lemma str_ltb_cons a s b t :
  str_ltb (a :: s) (b :: t) = true <-> a < b \/ (a = b /\ str_ltb s t = true).
Proof.
  cbn [str_ltb]. rewrite orb_true_iff, andb_true_iff, N.ltb_lt, N.eqb_eq. tauto.
Qed.

Lemma str_ltb_cons_false a s b t :
  str_ltb (a :: s) (b :: t) = false <-> b < a \/ (a = b /\ str_ltb s t = false).
Proof.
  rewrite <- !not_true_iff_false, str_ltb_cons. split.
  - intros Hn. destruct (N.lt_trichotomy a b) as [?|[->|?]]; [tauto|right|tauto].
    split; [reflexivity|]. intros E. apply Hn. auto.
  - intros [Hlt|[-> Hs]] [Hlt'|[E Hs']]; try lia. auto.
Qed.

Lemma str_ltb_asym s t : str_ltb s t = true -> str_ltb t s = false.
Proof.
  revert t. induction s as [|a s IH]; intros [|b t]; try discriminate; [reflexivity|].
  rewrite str_ltb_cons, str_ltb_cons_false. intros [?|[-> ?]]; auto.
Qed.

Lemma str_ltb_le_trans s t u :
  str_ltb t s = false -> str_ltb u t = false -> str_ltb u s = false.
Proof.
  revert t u. induction s as [|a s IH]; intros [|b t] [|c u]; try reflexivity; try discriminate.
  rewrite !str_ltb_cons_false.
  intros [?|[-> ?]] [?|[-> ?]]; try (left; lia). right. split; [reflexivity|]. eauto.
Qed.

(** Two strings neither of which is smaller are equal. *)
Lemma str_ltb_total s t : str_ltb s t = false -> str_ltb t s = false -> s = t.
Proof.
  revert t. induction s as [|a s IH]; intros [|b t] H1 H2; try discriminate; [reflexivity|].
  apply str_ltb_cons_false in H1, H2.
  destruct H1 as [?|[-> ?]], H2 as [?|[? ?]]; try lia. f_equal. auto.
Qed.

Lemma str_ltb_strict_weak : strict_weak str_ltb.
Proof. split; [apply str_ltb_asym|apply str_ltb_le_trans]. Qed.

Lemma strict_weak_key {A K} (ltK : K -> K -> bool) (key : A -> K) :
  strict_weak ltK -> strict_weak (fun a b => ltK (key a) (key b)).
Proof. intros [H1 H2]. split; eauto. Qed.

Lemma strict_weak_flip {A} (lt : A -> A -> bool) :
  strict_weak lt -> strict_weak (fun a b => lt b a).
Proof. intros [H1 H2]. split; eauto. Qed.

Lemma rank_name_ltb_spec a b :
  rank_name_ltb a b = true <->
  (fst a < fst b)%nat \/ (fst a = fst b /\ str_ltb (snd a) (snd b) = true).
Proof.
  unfold rank_name_ltb. rewrite orb_true_iff, andb_true_iff, Nat.ltb_lt, Nat.eqb_eq. tauto.
Qed.

Lemma rank_name_ltb_false a b :
  rank_name_ltb a b = false <->
  (fst b < fst a)%nat \/ (fst a = fst b /\ str_ltb (snd a) (snd b) = false).
Proof.
  rewrite <- !not_true_iff_false, rank_name_ltb_spec. split.
  - intros Hn. destruct (Nat.lt_trichotomy (fst a) (fst b)) as [?|[E|?]]; [tauto|right|tauto].
    split; [exact E|]. intros E'. apply Hn. auto.
  - intros [Hlt|[E Hs]] [Hlt'|[E' Hs']]; try lia. auto.
Qed.

Lemma rank_name_strict_weak : strict_weak rank_name_ltb.
Proof.
  split.
  - intros a b. rewrite rank_name_ltb_spec, rank_name_ltb_false.
    intros [?|[E ?]]; auto using str_ltb_asym.
  - intros a b c. rewrite !rank_name_ltb_false.
    intros [?|[E1 ?]] [?|[E2 ?]]; try (left; lia). right. split; [lia|].
    eauto using str_ltb_le_trans.
Qed.

Lemma ts_title_ltb_spec a b :
  ts_title_ltb a b = true <->
  (fst a < fst b)%Z \/ (fst a = fst b /\ str_ltb (snd a) (snd b) = true).
Proof.
  unfold ts_title_ltb. rewrite orb_true_iff, andb_true_iff, Z.ltb_lt, Z.eqb_eq. tauto.
Qed.

Lemma ts_title_ltb_false a b :
  ts_title_ltb a b = false <->
  (fst b < fst a)%Z \/ (fst a = fst b /\ str_ltb (snd a) (snd b) = false).
Proof.
  rewrite <- !not_true_iff_false, ts_title_ltb_spec. split.
  - intros Hn. destruct (Z.lt_trichotomy (fst a) (fst b)) as [?|[E|?]]; [tauto|right|tauto].
    split; [exact E|]. intros E'. apply Hn. auto.
  - intros [Hlt|[E Hs]] [Hlt'|[E' Hs']]; try lia. auto.
Qed.

Lemma ts_title_strict_weak : strict_weak ts_title_ltb.
Proof.
  split.
  - intros a b. rewrite ts_title_ltb_spec, ts_title_ltb_false.
    intros [?|[E ?]]; auto using str_ltb_asym.
  - intros a b c. rewrite !ts_title_ltb_false.
    intros [?|[E1 ?]] [?|[E2 ?]]; try (left; lia). right. split; [lia|].
    eauto using str_ltb_le_trans.
Qed.

(** ** Sorting *)

Lemma insert_by_Permutation {A} (lt : A -> A -> bool) x l : insert_by lt x l ≡ₚ x :: l.
Proof.
  induction l as [|y l IH]; [reflexivity|].
  cbn [insert_by]. destruct (lt y x); [|reflexivity].
  rewrite IH. apply Permutation_swap.
Qed.

Lemma py_sorted_Permutation {A} (lt : A -> A -> bool) l : py_sorted lt l ≡ₚ l.
Proof.
  induction l as [|x l IH]; [reflexivity|].
  cbn [py_sorted foldr]. rewrite insert_by_Permutation. f_equiv. exact IH.
Qed.

Lemma insert_by_sorted {A} (lt : A -> A -> bool) x l :
  strict_weak lt ->
  StronglySorted (fun a b => lt b a = false) l ->
  StronglySorted (fun a b => lt b a = false) (insert_by lt x l).
Proof.
  intros [Hasym Htrans]. induction 1 as [|y l Hs IH Hy]; cbn [insert_by].
  - repeat constructor.
  - destruct (lt y x) eqn:E.
    + constructor; [exact IH|].
      rewrite insert_by_Permutation. constructor; [apply Hasym, E|exact Hy].
    + constructor; [constructor; assumption|].
      constructor; [exact E|]. eapply Forall_impl; [exact Hy|].
      intros z Hz. cbn in Hz. eapply Htrans; eassumption.
Qed.

Lemma py_sorted_sorted {A} (lt : A -> A -> bool) l :
  strict_weak lt -> StronglySorted (fun a b => lt b a = false) (py_sorted lt l).
Proof.
  intros Hsw. induction l as [|x l IH]; [constructor|].
  cbn [py_sorted foldr]. apply insert_by_sorted; assumption.
Qed.

Lemma StronglySorted_lookup {A} (R : A -> A -> Prop) l i j a b :
  StronglySorted R l -> l !! i = Some a -> l !! j = Some b -> (i < j)%nat -> R a b.
Proof.
  intros Hs. revert i j. induction Hs as [|x l Hs IH Hx]; intros i j Hi Hj Hlt.
  - discriminate.
  - destruct j as [|j]; [lia|]. destruct i as [|i].
    + injection Hi as <-. cbn in Hj. rewrite Forall_forall in Hx.
      apply Hx. eapply list_elem_of_lookup_2, Hj.
    + cbn in Hi, Hj. apply (IH i j); auto; lia.
Qed.

(** The sort is stable: elements that compare equal keep their order. *)
Lemma insert_by_filter {A} (lt : A -> A -> bool) (p : A -> bool) x l :
  (forall y, p y = true -> p x = true -> lt y x = false) ->
  filter (fun a => p a = true) (insert_by lt x l)
  = filter (fun a => p a = true) (x :: l).
Proof.
  intros Hp. induction l as [|y l IH]; [reflexivity|].
  cbn [insert_by]. destruct (lt y x) eqn:E; [|reflexivity].
  rewrite filter_cons, IH, !filter_cons.
  destruct (decide (p y = true)) as [Hy|Hy]; [|reflexivity].
  destruct (decide (p x = true)) as [Hx|Hx]; [|reflexivity].
  rewrite (Hp y Hy Hx) in E. discriminate.
Qed.

Lemma py_sorted_stable {A} (lt : A -> A -> bool) (p : A -> bool) l :
  (forall x y, p x = true -> p y = true -> lt x y = false) ->
  filter (fun a => p a = true) (py_sorted lt l) = filter (fun a => p a = true) l.
Proof.
  intros Hp. induction l as [|x l IH]; [reflexivity|].
  cbn [py_sorted foldr]. rewrite insert_by_filter by (intros; apply Hp; assumption).
  fold (py_sorted lt l). rewrite !filter_cons, IH. reflexivity.
Qed.

(** ** Loops that can raise *)

Lemma foldM_invariant {A S} (P : S -> Prop) (body : S -> A -> res S) l s s' :
  P s ->
  (forall s a s', a ∈ l -> P s -> body s a = Ok s' -> P s') ->
  foldM body s l = Ok s' -> P s'.
Proof.
  revert s. induction l as [|a l IH]; intros s Hs Hstep; cbn [foldM].
  - intros [= <-]. exact Hs.
  - destruct (body s a) as [s1|e] eqn:E; [|discriminate]. cbn.
    apply IH.
    + eapply Hstep; [left|exact Hs|exact E].
    + intros s2 b s3 Hb. apply Hstep. right. exact Hb.
Qed.

Lemma foldM_total {A S} (P : S -> Prop) (body : S -> A -> res S) l s :
  P s ->
  (forall s a, a ∈ l -> P s -> exists s', body s a = Ok s' /\ P s') ->
  exists s', foldM body s l = Ok s' /\ P s'.
Proof.
  revert s. induction l as [|a l IH]; intros s Hs Hstep; cbn [foldM].
  - eauto.
  - destruct (Hstep s a) as (s1 & -> & Hs1); [left|exact Hs|]. cbn.
    apply IH; [exact Hs1|]. intros s2 b Hb. apply Hstep. right. exact Hb.
Qed.

(** ** The loop that makes a key unique *)

Lemma candidate_inj base_key j j' : candidate base_key j = candidate base_key j' -> j = j'.
Proof.
  unfold candidate. intros E%app_inv_head%app_inv_head%py_str_inj. lia.
Qed.

Lemma candidate_not_base base_key j : candidate base_key j <> base_key.
Proof.
  unfold candidate. intros E. apply (f_equal length) in E.
  rewrite !length_app in E. cbn in E. lia.
Qed.

Lemma candidate_good base_key j : good_slug base_key -> good_slug (candidate base_key j).
Proof. intros Hb. apply good_slug_suffix; auto using py_str_nonempty, py_str_alnum. Qed.

(** What the loop returns is outside [used_keys], and is the key it started
    from or a later candidate. *)
Lemma unique_key_spec fuel used_keys base_key key suffix k :
  unique_key fuel used_keys base_key key suffix = Ok k ->
  (k ∉ used_keys) /\ (k = key \/ exists j, (suffix <= j)%nat /\ k = candidate base_key j).
Proof.
  revert key suffix. induction fuel as [|n IH]; intros key suffix; cbn [unique_key];
    [discriminate|].
  case_bool_decide as Hin.
  - intros (Hk & [->|(j & Hj & ->)])%IH; split; auto; right.
    + exists suffix. auto.
    + exists j. split; [lia|reflexivity].
  - intros [= <-]. auto.
Qed.

(** The first candidate that is free, in the order the loop tries them. *)
Lemma unique_key_least fuel used_keys base_key key suffix k :
  unique_key fuel used_keys base_key key suffix = Ok k ->
  k = key \/ (key ∈ used_keys /\ exists j, (suffix <= j)%nat /\ k = candidate base_key j
              /\ forall i, (suffix <= i < j)%nat -> candidate base_key i ∈ used_keys).
Proof.
  revert key suffix. induction fuel as [|n IH]; intros key suffix; cbn [unique_key];
    [discriminate|].
  case_bool_decide as Hin.
  - intros [->|(Hc & j & Hj & -> & Hleast)]%IH; right; split; auto.
    + exists suffix. repeat split; auto. intros i Hi. lia.
    + exists j. repeat split; [lia|]. intros i Hi.
      destruct (decide (i = suffix)) as [->|Hne]; [exact Hc|]. apply Hleast. lia.
  - intros [= <-]. auto.
Qed.

Lemma seen_bound (seen : list str) (used_keys : gset str) :
  NoDup seen -> (forall k, k ∈ seen -> k ∈ used_keys) -> (length seen <= size used_keys)%nat.
Proof.
  intros Hnd Hsub. rewrite <- (size_list_to_set (C := gset str) seen Hnd).
  apply subseteq_size. intros k Hk%elem_of_list_to_set. auto.
Qed.

Lemma unique_key_fuel fuel used_keys base_key key suffix (seen : list str) :
  NoDup seen -> (forall k, k ∈ seen -> k ∈ used_keys) ->
  key ∉ seen ->
  (forall j, (suffix <= j)%nat -> (candidate base_key j ∉ seen) /\ candidate base_key j <> key) ->
  (size used_keys < fuel + length seen)%nat ->
  exists k, unique_key fuel used_keys base_key key suffix = Ok k.
Proof.
  revert key suffix seen. induction fuel as [|n IH]; intros key suffix seen Hnd Hsub Hk Hc Hf.
  - pose proof (seen_bound seen used_keys Hnd Hsub). lia.
  - cbn [unique_key]. case_bool_decide as Hin; [|eauto].
    apply (IH _ _ (key :: seen)).
    + constructor; assumption.
    + intros k [->|Hk']%elem_of_cons; auto.
    + intros [E|Hs]%elem_of_cons.
      * destruct (Hc suffix) as [_ Hne]; [lia|]. exact (Hne E).
      * destruct (Hc suffix) as [Hns _]; [lia|]. exact (Hns Hs).
    + intros j Hj. destruct (Hc j) as [Hns Hne]; [lia|]. split.
      * intros [E|Hs]%elem_of_cons; auto.
      * intros E%candidate_inj. lia.
    + cbn [length]. lia.
Qed.

(** The loop ends with the fuel [visit] gives it. *)
Lemma unique_key_total used_keys base_key :
  exists k, unique_key (S (size used_keys)) used_keys base_key base_key 2 = Ok k.
Proof.
  apply (unique_key_fuel _ _ _ _ _ []).
  - constructor.
  - intros k Hk%elem_of_nil. destruct Hk.
  - apply not_elem_of_nil.
  - intros j _. split; [apply not_elem_of_nil|apply candidate_not_base].
  - cbn. lia.
Qed.

Lemma unique_key_good fuel used_keys base_key suffix k :
  good_slug base_key ->
  unique_key fuel used_keys base_key base_key suffix = Ok k ->
  good_slug k /\ (k ∉ used_keys).
Proof.
  intros Hb (Hk & [->|(j & _ & ->)])%unique_key_spec; split; auto using candidate_good.
Qed.

(** ** discover_categories *)

Lemma index_Some {A} `{EqDecision A} (x : A) l i :
  index x l = Some i -> l !! i = Some x /\ (i < length l)%nat.
Proof.
  revert i. induction l as [|y l IH]; intros i; cbn [index]; [discriminate|].
  destruct (decide (y = x)) as [->|Hne].
  - intros [= <-]. cbn. split; [reflexivity|lia].
  - destruct (index x l) as [i'|]; [|discriminate]. intros [= <-].
    destruct (IH i' eq_refl) as [H1 H2]. cbn. split; [exact H1|lia].
Qed.

Lemma index_None {A} `{EqDecision A} (x : A) l : index x l = None <-> x ∉ l.
Proof.
  induction l as [|y l IH]; cbn [index].
  - split; [intros _; apply not_elem_of_nil|reflexivity].
  - rewrite not_elem_of_cons. destruct (decide (y = x)) as [->|Hne].
    + split; [discriminate|]. intros [Hn _]. congruence.
    + destruct (index x l); cbn.
      * split; [discriminate|]. intros [_ Hn]. apply IH in Hn. discriminate.
      * split; [|reflexivity]. intros _. split; [congruence|]. apply IH. reflexivity.
Qed.

Section Discover.
Context (U : Unicode).

(** What one round of the loop does with a directory it keeps. *)
Lemma visit_kept discovered used_keys directory st' :
  visit U (discovered, used_keys) directory = Ok st' ->
  st' = (discovered, used_keys) /\ ~ kept directory
  \/ kept directory /\ exists base_key key,
       slugify_category_key U (name directory) = Ok base_key
       /\ unique_key (S (size used_keys)) used_keys base_key base_key 2 = Ok key
       /\ st' = (discovered ++ [(key, prettify_category_name U (name directory), directory)],
                 {[ key ]} ∪ used_keys).
Proof.
  unfold visit, kept. destruct (is_dir directory); cbn [negb].
  2:{ intros [= <-]. left. split; [reflexivity|]. intros [? _]. discriminate. }
  destruct (startswith (py ".") (name directory)); cbn [orb].
  { intros [= <-]. left. split; [reflexivity|]. intros (_ & ? & _). discriminate. }
  case_bool_decide as Hig.
  { intros [= <-]. left. split; [reflexivity|]. intros (_ & _ & ? & _). contradiction. }
  destruct (glob_html directory) as [|f fs] eqn:Hg.
  { intros [= <-]. left. split; [reflexivity|]. intros (_ & _ & _ & ?). congruence. }
  destruct (slugify_category_key U (name directory)) as [base_key|] eqn:Hb; [|discriminate].
  cbn [mbind res_bind].
  destruct (unique_key _ _ _ _ _) as [key|] eqn:Hk; [|discriminate].
  intros [= <-]. right. split; [repeat split; auto; discriminate|].
  exists base_key, key. auto.
Qed.

Lemma visit_inv_step root st directory st' :
  directory ∈ root -> visit_inv U root st -> visit U st directory = Ok st' -> visit_inv U root st'.
Proof.
  destruct st as [discovered used_keys]. intros Hd (Hused & Hnd & Hok) Hv.
  apply visit_kept in Hv as [[-> _]|(Hkept & base_key & key & Hb & Hk & ->)].
  { repeat split; auto; apply Hused. }
  apply slugify_good in Hb. apply (unique_key_good _ _ _ _ _ Hb) in Hk as [Hgood Hfresh].
  unfold visit_inv. cbn [fst snd] in *. split; [|split].
  - intros k. rewrite map_app, elem_of_app, elem_of_union, elem_of_singleton, Hused.
    cbn. rewrite list_elem_of_singleton. unfold category_key at 2. cbn. tauto.
  - rewrite map_app. apply NoDup_app. split; [exact Hnd|]. split.
    + intros k Hk1 Hk2%list_elem_of_singleton. cbn in Hk2. subst k.
      apply Hfresh, Hused, Hk1.
    + cbn. apply NoDup_singleton.
  - apply Forall_app. split; [exact Hok|]. constructor; [|constructor].
    split; [exact Hgood|]. split; [reflexivity|]. split; [exact Hd|exact Hkept].
Qed.

Lemma visit_inv_init root : visit_inv U root ([], ∅).
Proof.
  repeat split; cbn.
  - intros Hk. set_solver.
  - intros Hk%elem_of_nil. destruct Hk.
  - constructor.
  - constructor.
Qed.

Lemma sorted_by_Permutation {A K} (ltK : K -> K -> bool) (key : A -> K) l :
  sorted_by ltK key l ≡ₚ l.
Proof. apply py_sorted_Permutation. Qed.

(** The categories returned have distinct, good keys, each stands for a
    directory of the root that the scan keeps, and they are in the order of
    [sort_key]. *)
Lemma discover_categories_spec root cats :
  discover_categories U root = Ok cats ->
  NoDup (map category_key cats)
  /\ Forall (discovered_ok U root) cats
  /\ StronglySorted (fun a b => rank_name_ltb (sort_key U b) (sort_key U a) = false) cats.
Proof.
  unfold discover_categories.
  destruct (foldM (visit U) _ _) as [st|] eqn:Hf; [|discriminate].
  cbn [mbind res_bind]. intros [= <-].
  apply (foldM_invariant (visit_inv U root)) in Hf.
  - destruct Hf as (_ & Hnd & Hok). split; [|split].
    + assert (P : map category_key (sorted_by rank_name_ltb (sort_key U) st.1)
                  ≡ₚ map category_key st.1)
        by apply Permutation_map, sorted_by_Permutation.
      rewrite P. exact Hnd.
    + rewrite sorted_by_Permutation. exact Hok.
    + apply (py_sorted_sorted (fun a b => rank_name_ltb (sort_key U a) (sort_key U b))).
      apply strict_weak_key, rank_name_strict_weak.
  - apply visit_inv_init.
  - intros s a s' Ha. apply visit_inv_step.
    rewrite <- (sorted_by_Permutation str_ltb (fun item => py_lower U (name item)) root).
    exact Ha.
Qed.

End Discover.

(** ** gather_notes *)

Lemma foldM_prefix {A S} (P : list A -> S -> Prop) (body : S -> A -> res S) l done s s' :
  P done s ->
  (forall done' a rest s s',
     done ++ l = done' ++ a :: rest -> P done' s -> body s a = Ok s' -> P (done' ++ [a]) s') ->
  foldM body s l = Ok s' -> P (done ++ l) s'.
Proof.
  revert done s. induction l as [|a l IH]; intros done s Hs Hstep; cbn [foldM].
  - intros [= <-]. rewrite app_nil_r. exact Hs.
  - destruct (body s a) as [s1|e] eqn:E; [|discriminate]. cbn.
    intros Hf. replace (done ++ a :: l) with ((done ++ [a]) ++ l) by (rewrite <- app_assoc; reflexivity).
    apply (IH (done ++ [a]) s1).
    + eapply (Hstep done a l); [reflexivity|exact Hs|exact E].
    + intros done' b rest s2 s3 Hd. apply (Hstep done' b rest).
      rewrite <- Hd, <- app_assoc. reflexivity.
    + exact Hf.
Qed.

Lemma foldM_ext {A S} (body body' : S -> A -> res S) l s :
  (forall s a, a ∈ l -> body s a = body' s a) -> foldM body s l = foldM body' s l.
Proof.
  revert s. induction l as [|a l IH]; intros s Hb; [reflexivity|].
  cbn [foldM]. rewrite Hb by left. destruct (body' s a); [|reflexivity]. cbn.
  apply IH. intros s' b Hin. apply Hb. right. exact Hin.
Qed.

Lemma sum_list_app (l k : list nat) : sum_list (l ++ k) = (sum_list l + sum_list k)%nat.
Proof. induction l as [|x l IH]; cbn; [reflexivity|]. rewrite IH. lia. Qed.

Section Gather.
Context (U : Unicode) (host : Host).

(** The inner loop appends one note per file, in order. *)
Lemma build_loop target_dir category_key category_name html_files notes notes' :
  foldM (fun notes html_file =>
           note ← build_note U host target_dir html_file category_key category_name;
           Ok (notes ++ [note])) notes html_files = Ok notes' ->
  exists built, notes' = notes ++ built
    /\ Forall2 (fun f n => build_note U host target_dir f category_key category_name = Ok n)
         html_files built.
Proof.
  revert notes. induction html_files as [|f fs IH]; intros notes; cbn [foldM].
  - intros [= <-]. exists []. rewrite app_nil_r. split; [reflexivity|constructor].
  - destruct (build_note U host target_dir f category_key category_name) as [n|] eqn:E;
      [|discriminate].
    cbn. intros (built & -> & Hb)%IH. exists (n :: built).
    rewrite <- app_assoc. split; [reflexivity|]. constructor; assumption.
Qed.

Lemma gather_category_step done c st st' :
  category_key c ∉ map category_key done ->
  gather_inv U host done st -> gather_category U host st c = Ok st' -> gather_inv U host (done ++ [c]) st'.
Proof.
  destruct st as [[notes counts] metas]. destruct c as [[k nm] dir].
  intros Hfresh (Hmeta & Hnone & Hsum & Hnotes). unfold gather_category.
  destruct (foldM _ notes _) as [notes'|] eqn:Hf; [|discriminate].
  cbn [mbind res_bind]. intros [= <-].
  apply build_loop in Hf as (built & -> & Hb).
  pose proof (Forall2_length _ _ _ Hb) as Hlen.
  unfold category_key in Hfresh. cbn [fst] in Hfresh.
  split; [|split; [|split]].
  - rewrite Hmeta, map_app. reflexivity.
  - intros k'. rewrite map_app, elem_of_app. cbn [map]. rewrite list_elem_of_singleton.
    unfold category_key at 2. cbn [fst]. intros Hk'.
    rewrite lookup_insert_ne by (intros ->; tauto). apply Hnone. tauto.
  - rewrite map_app, sum_list_app, length_app. cbn [map sum_list].
    unfold category_key at 2. cbn [fst]. rewrite lookup_insert_eq. cbn [default].
    rewrite <- Hlen, <- Hsum, Nat.add_0_r. f_equal.
    f_equal. apply map_ext_in. intros c' Hc'.
    rewrite lookup_insert_ne; [reflexivity|].
    intros ->. apply Hfresh. apply list_elem_of_In. apply in_map. exact Hc'.
  - apply Forall_app. split.
    + eapply Forall_impl; [exact Hnotes|]. intros n (c & Hc & Hn). exists c.
      split; [apply elem_of_app; left; exact Hc|exact Hn].
    + apply Forall_forall. intros n Hn.
      exists (k, nm, dir). split; [apply elem_of_app; right; left|].
      destruct (proj1 (list_elem_of_lookup _ _) Hn) as (i & Hi).
      destruct (Forall2_lookup_r _ _ _ _ _ Hb Hi) as (f & Hfi & Hbf).
      exists f. split; [|exact Hbf].
      apply list_elem_of_lookup_2 in Hfi.
      unfold sorted_by in Hfi. rewrite py_sorted_Permutation in Hfi. exact Hfi.
Qed.

End Gather.

(** ** The document *)

Section Document.
Context (U : Unicode) (host : Host).

(** The document, in terms of the categories discovered and the notes built. *)
Lemma gather_notes_spec now root doc :
  gather_notes U host now root = Ok doc ->
  exists cats built counts,
    discover_categories U root = Ok cats
    /\ notes doc = sorted_by_reverse ts_title_ltb note_sort_key built
    /\ total doc = length (notes doc)
    /\ generatedAt doc = local_stamp host now
    /\ categories doc
       = {| key := py "all"; cname := [0x5168; 0x90E8]; count := length (notes doc) |}
         :: map (entry_of counts) cats
    /\ count_sum (map (entry_of counts) cats) = length built
    /\ Forall (fun n => exists c, c ∈ cats /\ note_of U host c n) built.
Proof.
  unfold gather_notes.
  destruct (discover_categories U root) as [cats|] eqn:Hd; [|discriminate].
  cbn [mbind res_bind].
  destruct (foldM (gather_category U host) _ cats) as [[[built counts] metas]|] eqn:Hf;
    [|discriminate].
  intros [= <-]. cbn [notes total generatedAt categories].
  apply discover_categories_spec in Hd as Hspec. destruct Hspec as (Hnd & _ & _).
  apply (foldM_prefix (gather_inv U host) _ _ []) in Hf.
  - cbn [app] in Hf. destruct Hf as (Hmeta & _ & Hsum & Hnotes).
    exists cats, built, counts. repeat split; auto.
    + f_equal. rewrite Hmeta, map_map. reflexivity.
    + unfold count_sum. rewrite map_map. exact Hsum.
  - repeat split; try constructor.
  - intros done' c rest s s' E. apply gather_category_step.
    cbn [app] in E. rewrite E, map_app in Hnd. cbn [map] in Hnd.
    apply NoDup_app in Hnd as (_ & Hnd & _). intros Hin. apply (Hnd _ Hin). left.
Qed.

Lemma sorted_by_reverse_Permutation {A K} (ltK : K -> K -> bool) (key : A -> K) l :
  sorted_by_reverse ltK key l ≡ₚ l.
Proof. apply py_sorted_Permutation. Qed.

Lemma notes_descending now root doc :
  gather_notes U host now root = Ok doc ->
  StronglySorted (fun a b => ts_title_ltb (note_sort_key a) (note_sort_key b) = false)
    (notes doc).
Proof.
  intros (cats & built & counts & _ & -> & _)%gather_notes_spec.
  apply (py_sorted_sorted (fun a b => ts_title_ltb (note_sort_key b) (note_sort_key a))).
  apply strict_weak_flip, strict_weak_key, ts_title_strict_weak.
Qed.

End Document.

(** ** prettify_category_name *)

Lemma upper_not_alnum b : is_ascii_upper b = true -> is_alnum b = false.
Proof.
  unfold is_ascii_upper. rewrite andb_true_iff, !N.leb_le. intros Hb.
  apply not_true_iff_false. rewrite is_alnum_spec. lia.
Qed.

Lemma camel_spaces_cons b t : is_alnum b = false -> camel_spaces (b :: t) = b :: camel_spaces t.
Proof. intros Hb. cbn [camel_spaces]. rewrite Hb. destruct t; reflexivity. Qed.

Section Names.
Context (U : Unicode).

Lemma run_camel s :
  head (run U false camel_re (s, [])) =
  match s with
  | a :: b :: s'' =>
      if is_alnum a && is_ascii_upper b then Some (s'', [(2%nat, [b]); (1%nat, [a])]) else None
  | _ => None
  end.
Proof.
  unfold camel_re. rewrite run_seq, !run_group.
  cbn [run one_char fst snd]. unfold one_char. cbn [fst snd].
  destruct s as [|a s']; [reflexivity|].
  rewrite set_match_plain. cbn [xorb]. fold (is_alnum a).
  destruct (is_alnum a); cbn [andb]; [|destruct s'; reflexivity].
  cbn [map flat_map fst snd]. rewrite app_nil_r.
  destruct s' as [|b s'']; [reflexivity|].
  rewrite set_match_plain. cbn [xorb].
  replace (in_ranges [(65, 90)] b) with (is_ascii_upper b)
    by (unfold in_ranges, is_ascii_upper; cbn; rewrite orb_false_r; reflexivity).
  destruct (is_ascii_upper b); [|reflexivity].
  cbn [map head fst snd length].
  replace (S (S (length s'')) - S (length s''))%nat with 1%nat by lia.
  replace (S (length s'') - length s'')%nat with 1%nat by lia.
  reflexivity.
Qed.

Lemma sub_loop_camel fuel s :
  (length s <= fuel)%nat ->
  sub_loop U camel_re [TRef 1; TText (py " "); TRef 2] fuel s = camel_spaces s.
Proof.
  revert s. induction fuel as [|n IH]; intros s Hlen.
  { destruct s; [reflexivity|cbn in Hlen; lia]. }
  destruct s as [|a s']; [reflexivity|].
  cbn [sub_loop]. rewrite run_camel. cbn [camel_spaces].
  destruct s' as [|b s''].
  { rewrite IH by (cbn; lia). reflexivity. }
  destruct (is_alnum a && is_ascii_upper b) eqn:E.
  - apply andb_true_iff in E as [Ha Hb].
    replace (length s'' <? length (a :: b :: s''))%nat with true
      by (symmetry; apply Nat.ltb_lt; cbn; lia).
    rewrite IH by (cbn in Hlen; lia).
    rewrite (camel_spaces_cons b s'') by (apply upper_not_alnum, Hb). reflexivity.
  - rewrite IH by (cbn in Hlen |- *; lia). reflexivity.
Qed.

Lemma re_sub_camel s :
  re_sub U camel_re [TRef 1; TText (py " "); TRef 2] s = camel_spaces s.
Proof. apply sub_loop_camel. lia. Qed.

End Names.

(** ** Ranks and note ids *)

Section Notes.
Context (U : Unicode) (host : Host).

Lemma sort_key_rank c :
  (sort_key U c).1
  = default (length CATEGORY_ORDER_HINTS) (index (category_key c) CATEGORY_ORDER_HINTS)
  /\ (sort_key U c).2 = py_lower U (category_name c).
Proof.
  unfold sort_key. fold (category_key c). fold (category_name c).
  destruct (index (category_key c) CATEGORY_ORDER_HINTS); split; reflexivity.
Qed.

(** The id of a note built with a good key. *)
Lemma safe_id_good category_key s : good_slug category_key -> good_slug (slug U (category_key ++ s)).
Proof.
  intros (Hne & Hc & Hh & _). destruct category_key as [|c k]; [congruence|].
  apply slug_good. cbn [app]. apply slug_cons.
  apply Forall_cons in Hc as [[Hc|Hc] _]; [exact Hc|]. subst c. destruct Hh. reflexivity.
Qed.

Lemma build_note_id target_dir html_file category_key category_name n :
  build_note U host target_dir html_file category_key category_name = Ok n ->
  note_id n = slug U (category_key ++ py "-" ++ py_lower U (stem (file_name html_file))).
Proof.
  unfold build_note. destruct (local_date host _); [|discriminate]. cbn.
  destruct (pretty_title U _); [|discriminate]. cbn. intros [= <-]. reflexivity.
Qed.

Lemma stem_length nm : (length (stem nm) <= length nm)%nat.
Proof.
  unfold stem. destruct (rfind 46 nm) as [i|]; [|lia].
  destruct (_ && _); [|lia]. rewrite length_take. lia.
Qed.

(** [build_note] returns a note for an entry in range. *)
Lemma build_note_total target_dir html_file category_key category_name :
  in_range host html_file ->
  exists n, build_note U host target_dir html_file category_key category_name = Ok n.
Proof.
  intros [[d Hd] Hlen]. unfold build_note. rewrite Hd. cbn.
  destruct (pretty_title_total U (stem (file_name html_file))) as (t & ->); [|cbn; eauto].
  pose proof (stem_length (file_name html_file)). lia.
Qed.

End Notes.

(** ** Exceptions and totality *)

Lemma filter_Forall_id {A} (P : A -> Prop) `{forall x, Decision (P x)} l :
  Forall P l -> filter P l = l.
Proof.
  induction 1 as [|x l Hx Hl IH]; [reflexivity|].
  rewrite filter_cons_True by exact Hx. rewrite IH. reflexivity.
Qed.

Lemma foldM_raise {A S} (body : S -> A -> res S) l s e :
  foldM body s l = Raise e -> exists s' a, a ∈ l /\ body s' a = Raise e.
Proof.
  revert s. induction l as [|a l IH]; intros s; cbn [foldM]; [discriminate|].
  destruct (body s a) as [s1|e1] eqn:E; cbn [mbind res_bind].
  - intros (s' & a' & Hin & Hr)%IH. exists s', a'. split; [right; exact Hin|exact Hr].
  - intros [= ->]. exists s, a. split; [left|exact E].
Qed.

Section Totality.
Context (U : Unicode) (host : Host).

Lemma visit_total st directory :
  encodable (name directory) -> exists st', visit U st directory = Ok st'.
Proof.
  intros He. destruct st as [discovered used_keys]. unfold visit.
  destruct (negb (is_dir directory)); [eauto|].
  destruct (_ || _); [eauto|].
  destruct (glob_html directory); [eauto|].
  destruct (slugify_ok U (name directory)) as (base_key & ->); [right; exact He|].
  cbn [mbind res_bind].
  destruct (unique_key_total used_keys base_key) as (key & ->). cbn. eauto.
Qed.

(** [discover_categories] raises nothing when every name can be encoded. *)
Lemma discover_categories_total root :
  Forall (fun d => encodable (name d)) root -> exists cats, discover_categories U root = Ok cats.
Proof.
  intros He. unfold discover_categories.
  destruct (foldM_total (fun _ => True) (visit U)
              (sorted_by str_ltb (fun item => py_lower U (name item)) root) ([], ∅) I)
    as (st & -> & _).
  - intros st d Hd _. destruct (visit_total st d) as (st' & ->); [|eauto].
    rewrite sorted_by_Permutation in Hd. rewrite Forall_forall in He. exact (He d Hd).
  - cbn. eauto.
Qed.

Lemma build_loop_total target_dir category_key category_name html_files notes :
  Forall (in_range host) html_files ->
  exists notes',
    foldM (fun notes html_file =>
             note ← build_note U host target_dir html_file category_key category_name;
             Ok (notes ++ [note])) notes html_files = Ok notes'.
Proof.
  intros Hf. revert notes. induction Hf as [|f fs Hd Hfs IH]; intros notes; cbn [foldM];
    [eauto|].
  destruct (build_note_total U host target_dir f category_key category_name Hd) as (n & ->).
  cbn. apply IH.
Qed.

Lemma gather_category_total root st c :
  Forall (fun d => Forall (in_range host) (iterdir d)) root ->
  category_dir c ∈ root ->
  exists st', gather_category U host st c = Ok st'.
Proof.
  intros Hm Hc. destruct st as [[notes counts] metas]. destruct c as [[k nm] dir].
  unfold gather_category. unfold category_dir in Hc. cbn [snd] in Hc.
  rewrite Forall_forall in Hm. specialize (Hm dir Hc).
  destruct (build_loop_total dir k nm (sorted_by str_ltb file_name (glob_html dir)) notes)
    as (notes' & ->); [|cbn; eauto].
  rewrite sorted_by_Permutation. unfold glob_html.
  apply Forall_forall. intros f [_ Hf]%list_elem_of_filter.
  rewrite Forall_forall in Hm. exact (Hm f Hf).
Qed.

(** [gather_notes] returns a document when every name of the root can be
    encoded and every entry of its directories is in range. *)
Lemma gather_notes_total now root :
  Forall (fun d => encodable (name d)) root ->
  Forall (fun d => Forall (in_range host) (iterdir d)) root ->
  exists doc, gather_notes U host now root = Ok doc.
Proof.
  intros He Hm. unfold gather_notes.
  destruct (discover_categories_total root He) as (cats & Hd). rewrite Hd.
  cbn [mbind res_bind].
  apply discover_categories_spec in Hd as (_ & Hok & _).
  destruct (foldM_total (fun _ => True) (gather_category U host) cats ([], ∅, []) I)
    as ([[notes counts] metas] & -> & _).
  - intros st c Hc _. rewrite Forall_forall in Hok.
    destruct (Hok c Hc) as (_ & _ & Hin & _).
    destruct (gather_category_total root st c Hm Hin) as (st' & ->). eauto.
  - cbn. eauto.
Qed.

Lemma build_note_host host' target_dir html_file category_key category_name :
  local_date host (st_mtime html_file) = local_date host' (st_mtime html_file) ->
  build_note U host target_dir html_file category_key category_name
  = build_note U host' target_dir html_file category_key category_name.
Proof. intros E. unfold build_note. rewrite E. reflexivity. Qed.

Lemma gather_category_host host' st c :
  (forall f, f ∈ glob_html (category_dir c) ->
     local_date host (st_mtime f) = local_date host' (st_mtime f)) ->
  gather_category U host st c = gather_category U host' st c.
Proof.
  intros E. destruct st as [[notes counts] metas]. destruct c as [[k nm] dir].
  unfold gather_category. f_equal.
  apply foldM_ext. intros notes' f Hf. rewrite sorted_by_Permutation in Hf.
  rewrite (build_note_host host') by exact (E f Hf). reflexivity.
Qed.

(** The only exception of [slugify_category_key] is that of [str.encode]. *)
Lemma slugify_raise name e :
  slugify_category_key U name = Raise e -> e = UnicodeEncodeError.
Proof.
  intros Hr. destruct (decide (Forall (fun c => surrogate c = false) name)) as [Hs|Hs].
  - destruct (slugify_ok U name (or_intror Hs)) as (k & Hk). congruence.
  - apply not_Forall_Exists in Hs; [|intros c; apply _].
    destruct (slug U (py_lower U name)) as [|c s] eqn:E.
    + rewrite slugify_raises in Hr; [congruence|exact E|].
      eapply Exists_impl; [exact Hs|]. intros c Hc. unfold compose in Hc.
      destruct (surrogate c); [reflexivity|destruct Hc; reflexivity].
    + destruct (slugify_ok U name) as (k & Hk); [left; congruence|congruence].
Qed.

(** The exceptions of a run: a name that cannot be encoded, a modification
    time outside the range of [datetime], a numeral beyond the limit of
    [int]. The loops of the model never run out of fuel. *)
Lemma gather_notes_raise now root e :
  gather_notes U host now root = Raise e ->
  e = UnicodeEncodeError \/ e = OverflowError \/ e = ValueError.
Proof.
  unfold gather_notes, discover_categories.
  destruct (foldM (visit U) _ _) as [[discovered used_keys]|e1] eqn:Hv; cbn [mbind res_bind].
  - destruct (foldM (gather_category U host) _ _) as [[[built counts] metas]|e2] eqn:Hg;
      cbn [mbind res_bind]; [discriminate|].
    intros [= ->]. right.
    apply foldM_raise in Hg as ([[built counts] metas] & [[k nm] dir] & _ & Hg).
    unfold gather_category in Hg.
    destruct (foldM _ built _) as [built'|e3] eqn:Hb; cbn [mbind res_bind] in Hg;
      [discriminate|].
    injection Hg as ->. apply foldM_raise in Hb as (built' & f & _ & Hb).
    unfold build_note in Hb.
    destruct (local_date host (st_mtime f)); cbn [of_option mbind res_bind] in Hb;
      [|left; congruence].
    destruct (pretty_title U (stem (file_name f))) as [t|e'] eqn:Ht;
      cbn [mbind res_bind] in Hb; [discriminate|].
    injection Hb as ->. right. exact (proj1 (pretty_title_raise U _ _ Ht)).
  - intros [= ->]. left.
    apply foldM_raise in Hv as ([discovered used_keys] & d & _ & Hv). unfold visit in Hv.
    destruct (negb (is_dir d)); [discriminate|].
    destruct (_ || _); [discriminate|].
    destruct (glob_html d); [discriminate|].
    destruct (slugify_category_key U (name d)) as [base_key|e2] eqn:Hs;
      cbn [mbind res_bind] in Hv.
    + destruct (unique_key_total used_keys base_key) as (key & Hk). rewrite Hk in Hv.
      discriminate.
    + injection Hv as ->. exact (slugify_raise _ _ Hs).
Qed.

End Totality.

(** ** The integer of a numeral *)

Section Numerals.
Context (U : Unicode).

Lemma fold_digits d acc :
  fold_left (fun acc c => 10 * acc + default 0 (decimal_value U c)) (uint_chars d) acc
  = acc * 10 ^ DecimalPos.Unsigned.usize d + DecimalPos.Unsigned.of_lu (Decimal.rev d).
Proof.
  revert acc. induction d; intros acc; cbn [uint_chars fold_left DecimalPos.Unsigned.usize];
    [unfold Decimal.rev; cbn [Decimal.revapp DecimalPos.Unsigned.of_lu];
     rewrite N.pow_0_r, N.mul_1_r, N.add_0_r; reflexivity|..];
    rewrite IHd; unfold Decimal.rev; cbn [Decimal.revapp];
    rewrite !(DecimalPos.Unsigned.of_lu_revapp d), N.pow_succ_r';
    match goal with
    | |- context [decimal_value U ?c] =>
        let v := eval vm_compute in (default 0 (decimal_value U c)) in
        change (default 0 (decimal_value U c)) with v
    end;
    cbn [DecimalPos.Unsigned.of_lu]; ring.
Qed.

(** On ASCII digits [int] then [str] strips the leading zeros. *)
Lemma py_str_int_value d :
  py_str (int_value U (uint_chars d)) = uint_chars (Decimal.unorm d).
Proof.
  unfold int_value. rewrite fold_digits, N.mul_0_l, N.add_0_l.
  rewrite <- DecimalPos.Unsigned.of_uint_alt.
  unfold py_str. change (Pos.of_uint d) with (N.of_uint d).
  rewrite DecimalN.Unsigned.to_of. reflexivity.
Qed.

End Numerals.

(** ** The order of enumeration *)

Lemma sorted_unique {A} (R : A -> A -> Prop) (l1 l2 : list A) :
  StronglySorted R l1 -> StronglySorted R l2 -> l1 ≡ₚ l2 ->
  (forall a b, a ∈ l1 -> b ∈ l1 -> R a b -> R b a -> a = b) ->
  l1 = l2.
Proof.
  intros H1. revert l2. induction H1 as [|x l1 Hs1 IH Hx]; intros l2 H2 Hp Hanti.
  - apply Permutation_nil in Hp. congruence.
  - destruct H2 as [|y l2 Hs2 Hy].
    { symmetry in Hp. apply Permutation_nil in Hp. discriminate. }
    assert (E : x = y).
    { assert (Hxin : x ∈ y :: l2) by (rewrite <- Hp; left).
      assert (Hyin : y ∈ x :: l1) by (rewrite Hp; left).
      apply elem_of_cons in Hxin as [?|Hxin]; [assumption|].
      apply elem_of_cons in Hyin as [?|Hyin]; [congruence|].
      rewrite Forall_forall in Hx, Hy.
      apply Hanti; [left|right; exact Hyin|apply Hx, Hyin|apply Hy, Hxin]. }
    subst y. f_equal. apply IH; [exact Hs2|eapply Permutation_cons_inv, Hp|].
    intros a b Ha Hb. apply Hanti; right; assumption.
Qed.

Lemma NoDup_map_inj {A B} (f : A -> B) l a b :
  NoDup (map f l) -> a ∈ l -> b ∈ l -> f a = f b -> a = b.
Proof.
  induction l as [|x l IH]; cbn [map]; intros Hnd Ha Hb E.
  - apply elem_of_nil in Ha. destruct Ha.
  - apply NoDup_cons in Hnd as [Hx Hnd].
    apply elem_of_cons in Ha as [->|Ha], Hb as [->|Hb]; auto.
    + destruct Hx. rewrite E. apply list_elem_of_In, in_map, list_elem_of_In, Hb.
    + destruct Hx. rewrite <- E. apply list_elem_of_In, in_map, list_elem_of_In, Ha.
Qed.

(** Sorting on keys that are all different forgets the order of the input. *)
Lemma sorted_by_Permutation_eq {A} (key : A -> str) (l l' : list A) :
  NoDup (map key l) -> l ≡ₚ l' -> sorted_by str_ltb key l = sorted_by str_ltb key l'.
Proof.
  intros Hnd Hp.
  apply (sorted_unique (fun a b => str_ltb (key b) (key a) = false)).
  - apply (py_sorted_sorted (fun a b => str_ltb (key a) (key b))).
    apply strict_weak_key, str_ltb_strict_weak.
  - apply (py_sorted_sorted (fun a b => str_ltb (key a) (key b))).
    apply strict_weak_key, str_ltb_strict_weak.
  - rewrite !sorted_by_Permutation. exact Hp.
  - intros a b Ha Hb Hab Hba. rewrite sorted_by_Permutation in Ha, Hb.
    apply (NoDup_map_inj key l); auto. apply str_ltb_total; assumption.
Qed.

Lemma insert_by_Forall2 {A B} (R : A -> B -> Prop) (lt : A -> A -> bool) (lt' : B -> B -> bool)
    x x' l l' :
  (forall a a' b b', R a a' -> R b b' -> lt a b = lt' a' b') ->
  R x x' -> Forall2 R l l' -> Forall2 R (insert_by lt x l) (insert_by lt' x' l').
Proof.
  intros Hlt Hx Hl. induction Hl as [|y y' l l' Hy Hl IH]; cbn [insert_by].
  - repeat constructor. exact Hx.
  - rewrite (Hlt y y' x x' Hy Hx). destruct (lt' y' x').
    + constructor; assumption.
    + repeat constructor; assumption.
Qed.

(** Sorting two lists related element by element, on keys that agree. *)
Lemma py_sorted_Forall2 {A B} (R : A -> B -> Prop) (lt : A -> A -> bool)
    (lt' : B -> B -> bool) l l' :
  (forall a a' b b', R a a' -> R b b' -> lt a b = lt' a' b') ->
  Forall2 R l l' -> Forall2 R (py_sorted lt l) (py_sorted lt' l').
Proof.
  intros Hlt Hl. induction Hl as [|x x' l l' Hx Hl IH]; cbn [py_sorted foldr].
  - constructor.
  - apply insert_by_Forall2; assumption.
Qed.

Lemma foldM_rel {A A' S S'} (RS : S -> S' -> Prop) (RA : A -> A' -> Prop)
    (body : S -> A -> res S) (body' : S' -> A' -> res S') l l' s s' :
  RS s s' -> Forall2 RA l l' ->
  (forall s s' a a', RS s s' -> RA a a' -> res_rel RS (body s a) (body' s' a')) ->
  res_rel RS (foldM body s l) (foldM body' s' l').
Proof.
  intros Hs Hl Hb. revert s s' Hs. induction Hl as [|a a' l l' Ha Hl IH]; intros s s' Hs.
  - exact Hs.
  - cbn [foldM]. specialize (Hb s s' a a' Hs Ha).
    destruct (body s a) as [s1|e1], (body' s' a') as [s1'|e1']; cbn in Hb |- *;
      try contradiction; [apply IH; exact Hb|exact Hb].
Qed.

Lemma Forall2_and_l {A B} (P : A -> Prop) (R : A -> B -> Prop) l l' :
  Forall P l -> Forall2 R l l' -> Forall2 (fun a b => P a /\ R a b) l l'.
Proof.
  intros HP HR. induction HR as [|a b l l' Hab HR IH]; [constructor|].
  apply Forall_cons in HP as [Ha HP]. constructor; auto.
Qed.

Lemma same_tree_reversed root : same_tree root (reversed root).
Proof.
  exists (rev root). split; [apply Permutation_rev|]. unfold reversed.
  induction root as [|d root IH]; cbn [map rev]; [constructor|].
  apply Forall2_app; [exact IH|]. repeat constructor. cbn [iterdir]. apply Permutation_rev.
Qed.

Lemma same_dates_Forall host1 host2 root :
  Forall (fun d => Forall (fun f => local_date host1 (st_mtime f)
                                    = local_date host2 (st_mtime f)) (glob_html d)) root ->
  same_dates host1 host2 root.
Proof.
  intros H d f Hd Hf. rewrite Forall_forall in H. specialize (H d Hd).
  rewrite Forall_forall in H. exact (H f Hf).
Qed.

Section Enumeration.
Context (U : Unicode).

Lemma glob_html_same d1 d2 : same_dir d1 d2 -> glob_html d1 ≡ₚ glob_html d2.
Proof. intros (_ & _ & Hp). unfold glob_html. rewrite Hp. reflexivity. Qed.

Lemma visit_same discovered1 discovered2 used_keys d1 d2 :
  Forall2 same_category discovered1 discovered2 -> same_dir d1 d2 ->
  res_rel (fun st1 st2 => Forall2 same_category st1.1 st2.1 /\ st1.2 = st2.2)
    (visit U (discovered1, used_keys) d1) (visit U (discovered2, used_keys) d2).
Proof.
  intros Hdisc Hd. pose proof (glob_html_same d1 d2 Hd) as Hg.
  destruct Hd as (Hn & Hk & Hp). unfold visit. rewrite <- Hn, <- Hk.
  destruct (negb (is_dir d1)); [cbn; auto|].
  destruct (_ || _); [cbn; auto|].
  destruct (glob_html d1) as [|f1 fs1], (glob_html d2) as [|f2 fs2]; cbn [res_rel fst snd];
    auto.
  - apply Permutation_nil in Hg. discriminate.
  - symmetry in Hg. apply Permutation_nil in Hg. discriminate.
  - destruct (slugify_category_key U (name d1)) as [base_key|e]; [|reflexivity].
    cbn [mbind res_bind].
    destruct (unique_key _ _ _ _ _) as [key|e]; [|reflexivity].
    cbn [res_rel fst snd]. split; [|reflexivity].
    apply Forall2_app; [exact Hdisc|]. constructor; [|constructor].
    repeat split; auto.
Qed.

(** The categories discovered in two listings of one tree are the same, up
    to the order of the entries inside each directory. *)
Lemma discover_categories_same root1 root2 :
  same_tree root1 root2 ->
  NoDup (map (fun d => py_lower U (name d)) root1) ->
  res_rel (Forall2 same_category) (discover_categories U root1) (discover_categories U root2).
Proof.
  intros (root & Hp & Hf) Hnd. unfold discover_categories.
  rewrite (sorted_by_Permutation_eq (fun item => py_lower U (name item)) root1 root Hnd Hp).
  assert (Hsorted : Forall2 same_dir
                      (sorted_by str_ltb (fun item => py_lower U (name item)) root)
                      (sorted_by str_ltb (fun item => py_lower U (name item)) root2)).
  { apply py_sorted_Forall2; [|exact Hf].
    intros a a' b b' (Ea & _) (Eb & _). rewrite Ea, Eb. reflexivity. }
  assert (Hfold : res_rel
                    (fun st1 st2 => Forall2 same_category st1.1 st2.1 /\ st1.2 = st2.2)
                    (foldM (visit U) ([], ∅)
                       (sorted_by str_ltb (fun item => py_lower U (name item)) root))
                    (foldM (visit U) ([], ∅)
                       (sorted_by str_ltb (fun item => py_lower U (name item)) root2))).
  { apply (foldM_rel _ same_dir); [split; [constructor|reflexivity]|exact Hsorted|].
    intros [s1 u1] [s2 u2] a a' [Hs Hu] Ha. cbn [fst snd] in Hs, Hu. subst u2.
    apply visit_same; assumption. }
  destruct (foldM (visit U) _ (sorted_by _ _ root))
    as [[disc1 used1]|e1], (foldM (visit U) _ (sorted_by _ _ root2)) as [[disc2 used2]|e2];
    cbn [mbind res_bind res_rel fst snd] in Hfold |- *; try exact Hfold.
  destruct Hfold as [Hd _].
  apply py_sorted_Forall2; [|exact Hd].
  intros a a' b b' (Ka & Na & _) (Kb & Nb & _). unfold sort_key.
  fold (category_key a) (category_key a') (category_key b) (category_key b').
  fold (category_name a) (category_name a') (category_name b) (category_name b').
  rewrite Ka, Na, Kb, Nb. reflexivity.
Qed.

Lemma NoDup_map_filter {A B} (f : A -> B) (P : A -> Prop) `{forall x, Decision (P x)} l :
  NoDup (map f l) -> NoDup (map f (filter P l)).
Proof.
  induction l as [|x l IH]; cbn [map]; intros Hnd; [constructor|].
  apply NoDup_cons in Hnd as [Hx Hnd]. rewrite filter_cons.
  destruct (decide (P x)); [|auto]. cbn [map]. apply NoDup_cons. split; [|auto].
  intros Hin. apply Hx. apply list_elem_of_In, in_map_iff in Hin as (y & E & Hy).
  apply list_elem_of_In, list_elem_of_filter in Hy as [_ Hy].
  rewrite <- E. apply list_elem_of_In, in_map, list_elem_of_In, Hy.
Qed.

Lemma foldM_Forall2 {A A' S} (RA : A -> A' -> Prop)
    (body : S -> A -> res S) (body' : S -> A' -> res S) l l' s :
  Forall2 RA l l' -> (forall s a a', RA a a' -> body s a = body' s a') ->
  foldM body s l = foldM body' s l'.
Proof.
  intros Hl Hb. revert s. induction Hl as [|a a' l l' Ha Hl IH]; intros s; [reflexivity|].
  cbn [foldM]. rewrite (Hb s a a' Ha). destruct (body' s a'); cbn [mbind res_bind]; auto.
Qed.

Context (host1 host2 : Host).

(** The loop body of [gather_notes] does the same on two listings of one
    directory. *)
Lemma gather_category_same st c1 c2 :
  (forall f, f ∈ glob_html (category_dir c1) ->
     local_date host1 (st_mtime f) = local_date host2 (st_mtime f)) ->
  NoDup (map file_name (iterdir (category_dir c1))) -> same_category c1 c2 ->
  gather_category U host1 st c1 = gather_category U host2 st c2.
Proof.
  destruct st as [[notes counts] metas], c1 as [[k1 n1] d1], c2 as [[k2 n2] d2].
  unfold same_category, category_key, category_name, category_dir. cbn [fst snd].
  intros Hz Hnd (<- & <- & Hd). pose proof (glob_html_same d1 d2 Hd) as Hg.
  destruct Hd as (Hn & _ & _).
  unfold gather_category.
  rewrite <- (sorted_by_Permutation_eq file_name (glob_html d1) (glob_html d2))
    by (try exact Hg; apply NoDup_map_filter, Hnd).
  f_equal. apply foldM_ext. intros notes' f Hf. rewrite sorted_by_Permutation in Hf.
  rewrite (build_note_host U host1 host2) by exact (Hz f Hf).
  unfold build_note. rewrite Hn. reflexivity.
Qed.

(** Two listings of one tree give the same document, [generatedAt] apart. *)
Lemma gather_notes_same now1 now2 root1 root2 :
  same_dates host1 host2 root1 -> same_tree root1 root2 -> distinct_names U root1 ->
  res_map without_generatedAt (gather_notes U host1 now1 root1)
  = res_map without_generatedAt (gather_notes U host2 now2 root2).
Proof.
  intros Hz Ht [Hroot Hdirs]. pose proof (discover_categories_same root1 root2 Ht Hroot) as Hd.
  unfold gather_notes.
  destruct (discover_categories U root1) as [cats1|e1] eqn:E1,
           (discover_categories U root2) as [cats2|e2];
    cbn [res_rel] in Hd; try contradiction; [|cbn; congruence].
  cbn [mbind res_bind].
  apply discover_categories_spec in E1 as (_ & Hok & _).
  rewrite (foldM_Forall2
             (fun c1 c2 => (category_dir c1 ∈ root1
                            /\ NoDup (map file_name (iterdir (category_dir c1))))
                           /\ same_category c1 c2)
             (gather_category U host1) (gather_category U host2) cats1 cats2).
  - destruct (foldM (gather_category U host2) _ cats2) as [[[built counts] metas]|];
      reflexivity.
  - apply Forall2_and_l; [|exact Hd].
    apply Forall_forall. intros c Hc.
    destruct (proj1 (Forall_forall _ _) Hok c Hc) as (_ & _ & Hin & _).
    split; [exact Hin|]. exact (proj1 (Forall_forall _ _) Hdirs _ Hin).
  - intros st c1 c2 [[Hin H1] H2]. apply gather_category_same; try assumption.
    intros f Hf. exact (Hz _ f Hin Hf).
Qed.

End Enumeration.

(** * The properties of the specification *)

(** C1 (as amended). In every document [gather_notes] returns, [total] is the
    number of notes, the list of categories starts with the entry ["all"]
    whose count is [total], and the counts of the entries after it add up to
    [total]. The sum over the entries whose key is not ["all"] equals [total]
    whenever no directory has the key ["all"]. *)
Theorem gather_notes_counts (U : Unicode) (host : Host) now root doc :
  gather_notes U host now root = Ok doc ->
  total doc = length (notes doc)
  /\ exists rest,
       categories doc
       = {| key := py "all"; cname := [0x5168; 0x90E8]; count := total doc |} :: rest
       /\ count_sum rest = total doc
       /\ (Forall (fun c => key c <> py "all") rest ->
           count_sum_except_all (categories doc) = total doc).
Proof.
  intros (cats & built & counts & _ & Hn & Ht & _ & Hc & Hs & _)%gather_notes_spec.
  split; [exact Ht|]. exists (map (entry_of counts) cats).
  assert (Hsum : count_sum (map (entry_of counts) cats) = total doc).
  { rewrite Hs, Ht, Hn. symmetry. apply Permutation_length, sorted_by_reverse_Permutation. }
  split; [rewrite Hc, Ht; reflexivity|]. split; [exact Hsum|].
  intros Hall. unfold count_sum_except_all. rewrite Hc.
  rewrite filter_cons_False by (intros Hk; apply Hk; reflexivity).
  rewrite filter_Forall_id by exact Hall. exact Hsum.
Qed.

(** C2 (as amended). A stem that matches [chap(ter|er)<digits>] without regard
    to case becomes, when it has at most 4300 digits, the chapter title with
    the integer the digits denote, so leading zeros are dropped; with more
    digits [int] refuses the numeral and [ValueError] is raised. [chapter3]
    and [chaper03] give the title of chapter 3, and [chap03], which does not
    match, is kept as it is. *)
Theorem pretty_title_chapter_rule (U : Unicode) :
  (forall stem ds, matches_chapter U stem ds -> (length ds <= int_max_str_digits)%nat ->
     pretty_title U stem = Ok ([0x7B2C] ++ py_str (int_value U ds) ++ [0x7AE0]))
  /\ (forall stem ds, matches_chapter U stem ds -> (int_max_str_digits < length ds)%nat ->
        pretty_title U stem = Raise ValueError)
  /\ (forall d, py_str (int_value U (uint_chars d)) = uint_chars (Decimal.unorm d))
  /\ pretty_title U (py "chapter3") = Ok [0x7B2C; 51; 0x7AE0]
  /\ pretty_title U (py "chaper03") = Ok [0x7B2C; 51; 0x7AE0]
  /\ pretty_title U (py "chap03") = Ok (py "chap03").
Proof.
  split; [apply pretty_title_chapter|]. split; [apply pretty_title_chapter_long|].
  split; [apply py_str_int_value|].
  repeat split; vm_compute; reflexivity.
Qed.

(** C3. The notes of the document are in descending order of
    [(updatedAtTs, title)]: a note never comes before one with a larger
    time stamp, nor before one with the same time stamp and a later title;
    so of two notes the one with the larger time stamp, or with the same time
    stamp and the later title, is the first. *)
Theorem gather_notes_sorted (U : Unicode) (host : Host) now root doc i j a b :
  gather_notes U host now root = Ok doc ->
  notes doc !! i = Some a -> notes doc !! j = Some b ->
  ((i < j)%nat ->
     (updatedAtTs b <= updatedAtTs a)%Z
     /\ (updatedAtTs a = updatedAtTs b -> str_ltb (title a) (title b) = false))
  /\ ((updatedAtTs b < updatedAtTs a)%Z
      \/ (updatedAtTs a = updatedAtTs b /\ str_ltb (title b) (title a) = true) ->
      (i < j)%nat).
Proof.
  intros Hs%notes_descending Ha Hb.
  assert (Hord : forall i j a b, notes doc !! i = Some a -> notes doc !! j = Some b ->
            (i < j)%nat ->
            (updatedAtTs b <= updatedAtTs a)%Z
            /\ (updatedAtTs a = updatedAtTs b -> str_ltb (title a) (title b) = false)).
  { intros i' j' a' b' Ha' Hb' Hlt.
    pose proof (StronglySorted_lookup _ _ _ _ _ _ Hs Ha' Hb' Hlt) as H. cbn beta in H.
    apply ts_title_ltb_false in H. unfold note_sort_key in H. cbn [fst snd] in H.
    destruct H as [H|[H1 H2]]; split; try lia; auto. }
  split; [apply Hord; assumption|].
  intros Hlater. destruct (Nat.lt_trichotomy i j) as [Hlt|[->|Hgt]]; [exact Hlt| |].
  - rewrite Ha in Hb. injection Hb as ->.
    destruct Hlater as [Hl|[_ Hl]]; [lia|]. rewrite str_ltb_irrefl in Hl. discriminate.
  - destruct (Hord j i b a Hb Ha Hgt) as [H1 H2].
    destruct Hlater as [Hl|[E Hl]]; [lia|]. rewrite (H2 (eq_sym E)) in Hl. discriminate.
Qed.

(** C4 (as amended). A directory name that can be encoded in UTF-8, or whose
    lower case holds a character of [a-z0-9], has a key, and a key is never
    empty, is made of [a-z0-9-] and has no hyphen at either end; the keys of
    one run are distinct; a directory that is kept gets the first of its key,
    its key with [-2], with [-3], ... that is not in use; the scan raises
    nothing when every name can be encoded; and a name with a surrogate and
    an empty slug has no key, [UnicodeEncodeError] is raised. *)
Theorem category_keys_good_unique (U : Unicode) :
  (forall name, encodable name \/ slug U (py_lower U name) <> [] ->
     exists k, slugify_category_key U name = Ok k /\ good_slug k)
  /\ (forall root cats, discover_categories U root = Ok cats ->
        NoDup (map category_key cats) /\ Forall (fun c => good_slug (category_key c)) cats)
  /\ (forall discovered used_keys directory st',
        kept directory -> visit U (discovered, used_keys) directory = Ok st' ->
        exists base_key key,
          slugify_category_key U (name directory) = Ok base_key
          /\ st' = (discovered ++ [(key, prettify_category_name U (name directory), directory)],
                    {[ key ]} ∪ used_keys)
          /\ (key ∉ used_keys)
          /\ (key = base_key
              \/ (base_key ∈ used_keys
                  /\ exists j, (2 <= j)%nat /\ key = candidate base_key j
                       /\ forall i, (2 <= i < j)%nat -> candidate base_key i ∈ used_keys)))
  /\ (forall root, Forall (fun d => encodable (name d)) root ->
        exists cats, discover_categories U root = Ok cats)
  /\ (forall name, slug U (py_lower U name) = [] ->
        Exists (fun c => surrogate c = true) name ->
        slugify_category_key U name = Raise UnicodeEncodeError).
Proof.
  split; [|split; [|split; [|split]]].
  - intros name Hn. destruct (slugify_ok U name) as (k & Hk); [tauto|].
    exists k. split; [exact Hk|]. exact (slugify_good U name k Hk).
  - intros root cats (Hnd & Hok & _)%discover_categories_spec. split; [exact Hnd|].
    eapply Forall_impl; [exact Hok|]. intros c Hc. apply Hc.
  - intros discovered used_keys directory st' Hkept Hv.
    apply visit_kept in Hv as [[_ Hn]|(_ & base_key & key & Hb & Hk & ->)]; [tauto|].
    exists base_key, key. split; [exact Hb|]. split; [reflexivity|].
    split; [apply unique_key_spec in Hk; tauto|].
    apply unique_key_least in Hk. exact Hk.
  - apply discover_categories_total.
  - apply slugify_raises.
Qed.

(** C5 (as amended). Every category [discover_categories] returns stands for
    an entry of the root that is a directory, whose name neither starts with
    a dot nor is in the ignore set, and that lists an entry whose name ends
    in [.html]: a file or, since [glob] does not tell them apart, a
    sub-directory. *)
Theorem discover_categories_skips (U : Unicode) root cats c :
  discover_categories U root = Ok cats -> c ∈ cats ->
  category_dir c ∈ root
  /\ is_dir (category_dir c) = true
  /\ startswith (py ".") (name (category_dir c)) = false
  /\ (name (category_dir c) ∉ IGNORED_DIRS)
  /\ exists f, f ∈ iterdir (category_dir c) /\ endswith (py ".html") (file_name f) = true.
Proof.
  intros (_ & Hok & _)%discover_categories_spec Hc.
  rewrite Forall_forall in Hok. destruct (Hok c Hc) as (_ & _ & Hin & Hd & Hdot & Hig & Hg).
  repeat split; auto.
  destruct (glob_html (category_dir c)) as [|f fs] eqn:E; [congruence|].
  assert (Hf : f ∈ glob_html (category_dir c)) by (rewrite E; left).
  apply list_elem_of_filter in Hf as [Hf1 Hf2]. eauto.
Qed.

(** C6. In the list [discover_categories] returns, no category outside the
    priority list comes before one inside it, two categories inside it come
    in the order of the list, and two categories outside it come in the order
    of their lower-cased display names. *)
Theorem discover_categories_order (U : Unicode) root cats i j a b :
  discover_categories U root = Ok cats ->
  cats !! i = Some a -> cats !! j = Some b -> (i < j)%nat ->
  (priority b -> priority a)
  /\ (priority a -> priority b ->
      exists ia ib, CATEGORY_ORDER_HINTS !! ia = Some (category_key a)
        /\ CATEGORY_ORDER_HINTS !! ib = Some (category_key b) /\ (ia < ib)%nat)
  /\ (~ priority a -> ~ priority b ->
      str_ltb (py_lower U (category_name b)) (py_lower U (category_name a)) = false).
Proof.
  intros (Hnd & _ & Hs)%discover_categories_spec Ha Hb Hlt.
  pose proof (StronglySorted_lookup _ _ _ _ _ _ Hs Ha Hb Hlt) as Hab. cbn beta in Hab.
  apply rank_name_ltb_false in Hab.
  destruct (sort_key_rank U a) as [Ea1 Ea2], (sort_key_rank U b) as [Eb1 Eb2].
  rewrite Ea1, Ea2, Eb1, Eb2 in Hab. clear Ea1 Ea2 Eb1 Eb2.
  unfold priority.
  destruct (index (category_key a) CATEGORY_ORDER_HINTS) as [ia|] eqn:Ia;
    destruct (index (category_key b) CATEGORY_ORDER_HINTS) as [ib|] eqn:Ib; cbn [default from_option id] in Hab.
  - apply index_Some in Ia as [Ia Ha4], Ib as [Ib Hb4].
    assert (Hne : ia <> ib).
    { intros ->. rewrite Ia in Ib. injection Ib as Ek.
      assert (Hi : map category_key cats !! i = Some (category_key a))
        by (rewrite list_lookup_fmap, Ha; reflexivity).
      assert (Hj : map category_key cats !! j = Some (category_key a))
        by (rewrite list_lookup_fmap, Hb, Ek; reflexivity).
      pose proof (NoDup_lookup _ _ _ _ Hnd Hi Hj) as E. subst j.
      exact (Nat.lt_irrefl _ Hlt). }
    split; [|split].
    + intros _. eapply list_elem_of_lookup_2, Ia.
    + intros _ _. exists ia, ib. repeat split; auto. lia.
    + intros Hn. destruct Hn. eapply list_elem_of_lookup_2, Ia.
  - apply index_Some in Ia as [Ia Ha4]. apply index_None in Ib.
    split; [|split]; try tauto. intros Hn. destruct Hn. eapply list_elem_of_lookup_2, Ia.
  - apply index_Some in Ib as [Ib Hb4]. lia.
  - apply index_None in Ia, Ib. split; [|split]; try tauto.
    intros _ _. destruct Hab as [?|[_ ?]]; [lia|assumption].
Qed.

(** C7 (as amended). After the chapter rule, a stem that matches
    [diffusion[-_ ]?<digits>] without regard to case becomes, when it has at
    most 4300 digits, ["Diffusion N"] with the integer the digits denote, and
    raises [ValueError] when it has more; a stem whose upper case is ["VAE"]
    becomes ["VAE"]; every other stem has its underscores and hyphens turned
    to spaces and loses the white space at its two ends. [pretty_title] raises
    nothing else, and nothing on a stem of at most 4300 characters. *)
Theorem pretty_title_rules (U : Unicode) :
  digits_uncased U ->
  (forall stem ds, matches_diffusion U stem ds -> (length ds <= int_max_str_digits)%nat ->
     pretty_title U stem = Ok (py "Diffusion " ++ py_str (int_value U ds)))
  /\ (forall stem ds, matches_diffusion U stem ds -> (int_max_str_digits < length ds)%nat ->
        pretty_title U stem = Raise ValueError)
  /\ (forall stem, py_upper U stem = py "VAE" -> pretty_title U stem = Ok (py "VAE"))
  /\ (forall stem,
        (forall ds, ~ matches_chapter U stem ds) ->
        (forall ds, ~ matches_diffusion U stem ds) ->
        py_upper U stem <> py "VAE" ->
        exists t, pretty_title U stem = Ok t /\ trimmed (spaced stem) t)
  /\ pretty_title U (py "diffusion-7") = Ok (py "Diffusion 7")
  /\ pretty_title U (py "vae") = Ok (py "VAE")
  /\ pretty_title U (py "my_notes-v2") = Ok (py "my notes v2")
  /\ pretty_title U ([9; 32] ++ py "_my_notes-v2- ") = Ok (py "my notes v2")
  /\ (forall stem, (length stem <= int_max_str_digits)%nat ->
        exists t, pretty_title U stem = Ok t)
  /\ (forall stem e, pretty_title U stem = Raise e ->
        e = ValueError
        /\ exists ds, (matches_chapter U stem ds \/ matches_diffusion U stem ds)
             /\ (int_max_str_digits < length ds)%nat).
Proof.
  intros Hu.
  split; [apply pretty_title_diffusion|]. split; [apply pretty_title_diffusion_long|].
  split; [intros stem; apply pretty_title_VAE, Hu|].
  split.
  { intros stem Hc Hd Hv. eexists. split; [apply pretty_title_default; assumption|].
    rewrite spaced_replace. apply strip_trimmed. }
  split; [vm_compute; reflexivity|]. split; [vm_compute; reflexivity|].
  split; [vm_compute; reflexivity|]. split; [vm_compute; reflexivity|].
  split; [apply pretty_title_total|].
  intros stem e He. destruct (pretty_title_outcome U stem) as [(t & Ht)|(Hv & Hm)].
  - congruence.
  - split; [congruence|exact Hm].
Qed.

(** C8 (as amended). The display name of a directory in the table of
    overrides is its override; of any other directory it is the name with a
    space at each boundary from a character of [a-z0-9] to a character of
    [A-Z], underscores and hyphens turned to spaces, without the white space
    at its two ends, or the name itself when nothing is left. A boundary
    between letters outside ASCII gets no space. *)
Theorem prettify_category_name_spec (U : Unicode) :
  (forall name override, CATEGORY_NAME_OVERRIDES !! name = Some override ->
     prettify_category_name U name = override)
  /\ (forall name, CATEGORY_NAME_OVERRIDES !! name = None ->
        exists t, trimmed (spaced (camel_spaces name)) t
          /\ prettify_category_name U name = if is_nil t then name else t)
  /\ prettify_category_name U (py "TimeSeries") = [0x65F6; 0x95F4; 0x5E8F; 0x5217]
  /\ prettify_category_name U (py "MyTopicArea") = py "My Topic Area"
  /\ prettify_category_name U ([9; 32] ++ py "myTopic_area-2 ") = py "my Topic area 2"
  /\ prettify_category_name U (py "__") = py "__"
  /\ prettify_category_name U (py "caf" ++ [0xE9] ++ py "Bar") = py "caf" ++ [0xE9] ++ py "Bar".
Proof.
  split; [|split].
  - intros name override E. unfold prettify_category_name. rewrite E. reflexivity.
  - intros name E. exists (strip is_space (spaced (camel_spaces name))).
    split; [apply strip_trimmed|].
    unfold prettify_category_name. rewrite E, re_sub_camel, spaced_replace. cbv zeta.
    destruct (strip is_space _); reflexivity.
  - repeat split; vm_compute; reflexivity.
Qed.

(** C9 (as amended). Two runs on hosts that give the modification time of
    every [*.html] entry of the tree the same local date, over the same
    listing of the tree, or over any two listings of it when no two entries
    of a directory have the same name and no two entries of the root the same
    lower-cased name, both raise the same exception or return documents that
    differ in [generatedAt] at most, whatever the clocks say. *)
Theorem gather_notes_deterministic (U : Unicode) (host1 host2 : Host) now1 now2 root1 root2 :
  same_dates host1 host2 root1 ->
  root1 = root2 \/ (same_tree root1 root2 /\ distinct_names U root1) ->
  res_map without_generatedAt (gather_notes U host1 now1 root1)
  = res_map without_generatedAt (gather_notes U host2 now2 root2).
Proof.
  intros E [<-|[Ht Hd]]; [|apply gather_notes_same; assumption].
  unfold gather_notes.
  destruct (discover_categories U root1) as [cats|] eqn:Hdisc; [|reflexivity].
  cbn [mbind res_bind].
  apply discover_categories_spec in Hdisc as (_ & Hok & _).
  rewrite (foldM_ext (gather_category U host1) (gather_category U host2)).
  - destruct (foldM (gather_category U host2) _ cats) as [[[built counts] metas]|];
      reflexivity.
  - intros st c Hc. apply gather_category_host. intros f Hf.
    rewrite Forall_forall in Hok. destruct (Hok c Hc) as (_ & _ & Hin & _).
    exact (E _ f Hin Hf).
Qed.

Lemma twin_ids :
  exists doc, gather_notes ascii_only utc_host 0 twin_root = Ok doc
    /\ map note_id (notes doc) = [py "notes-a-b"; py "notes-a-b"].
Proof. eexists. split; vm_compute; reflexivity. Qed.

(** C10. A note built with the key of a discovered category has an id that
    is not empty, is made of [a-z0-9-] and has no hyphen at either end; two
    notes of one run can have the same id. *)
Theorem note_id_good :
  (forall (U : Unicode) (host : Host) root cats c target_dir html_file category_name n,
     discover_categories U root = Ok cats -> c ∈ cats ->
     build_note U host target_dir html_file (category_key c) category_name = Ok n ->
     good_slug (note_id n))
  /\ (exists doc, gather_notes ascii_only utc_host 0 twin_root = Ok doc
        /\ ~ NoDup (map note_id (notes doc))).
Proof.
  split.
  - intros U host root cats c target_dir html_file category_name n
      (_ & Hok & _)%discover_categories_spec Hc Hn.
    rewrite (build_note_id U host _ _ _ _ _ Hn). apply safe_id_good.
    rewrite Forall_forall in Hok. apply (Hok c Hc).
  - destruct twin_ids as (doc & Hd & Hids). exists doc. split; [exact Hd|].
    rewrite Hids. intros Hnd. apply NoDup_cons in Hnd as [Hn _]. apply Hn. left.
Qed.

(** * Samples *)

(** ** The sample hosts *)

Example utc_date_sample : utc_date 1700000000000000 = Some (py "2023-11-14").
Proof. vm_compute. reflexivity. Qed.

Example utc_stamp_sample : utc_stamp 1700000000000000 = py "2023-11-14 22:13:20 +0000".
Proof. vm_compute. reflexivity. Qed.

Example utc_date_leap : utc_date 951782400000000 = Some (py "2000-02-29").
Proof. vm_compute. reflexivity. Qed.

Example utc_date_before_epoch : utc_date (-1) = Some (py "1969-12-31").
Proof. vm_compute. reflexivity. Qed.

Example east_stamp_sample :
  local_stamp east_host 1700000000000000 = py "2023-11-15 06:13:20 +0800".
Proof. vm_compute. reflexivity. Qed.

(** ** The theorems at sample inputs *)

Lemma gather_notes_counts_demo :
  exists doc, gather_notes ascii_only utc_host 1700001000000000 demo_root = Ok doc
    /\ total doc = 4%nat
    /\ total doc = length (notes doc)
    /\ exists rest,
         categories doc
         = {| key := py "all"; cname := [0x5168; 0x90E8]; count := total doc |} :: rest
         /\ count_sum rest = total doc
         /\ (Forall (fun c => key c <> py "all") rest ->
             count_sum_except_all (categories doc) = total doc).
Proof.
  eexists. split; [vm_compute; reflexivity|]. split; [reflexivity|].
  apply (gather_notes_counts ascii_only utc_host 1700001000000000 demo_root).
  vm_compute. reflexivity.
Defined.

(** The sum over the keys other than ["all"] misses a directory named [All]. *)
Lemma count_sum_except_all_fails :
  exists doc, gather_notes ascii_only utc_host 0 all_root = Ok doc
    /\ total doc = 1%nat
    /\ count_sum_except_all (categories doc) = 0%nat.
Proof. eexists. repeat split; vm_compute; reflexivity. Qed.

Lemma pretty_title_chapter_demo :
  matches_chapter arabic_indic (py "CHAPER" ++ [0x660; 0x663]) [0x660; 0x663]
  /\ pretty_title arabic_indic (py "CHAPER" ++ [0x660; 0x663]) = Ok [0x7B2C; 51; 0x7AE0].
Proof.
  assert (Hm : matches_chapter arabic_indic (py "CHAPER" ++ [0x660; 0x663]) [0x660; 0x663]).
  { exists (py "CHAPER"). split; [reflexivity|]. split.
    - right. repeat constructor.
    - split; [discriminate|repeat constructor]. }
  split; [exact Hm|].
  apply (proj1 (pretty_title_chapter_rule arabic_indic) _ _ Hm).
  unfold int_max_str_digits. cbn [length]. lia.
Defined.

(** [chap03] has neither [ter] nor [er] after [chap]: it is no chapter. *)
Lemma pretty_title_chap03 :
  pretty_title ascii_only (py "chap03") = Ok (py "chap03")
  /\ py "chap03" <> [0x7B2C; 51; 0x7AE0].
Proof. split; [vm_compute; reflexivity|discriminate]. Qed.

Lemma gather_notes_sorted_demo :
  exists doc a b,
    gather_notes ascii_only utc_host 0 demo_root = Ok doc
    /\ notes doc !! 2%nat = Some a /\ notes doc !! 3%nat = Some b
    /\ title a = [0x7B2C; 50; 0x7AE0] /\ title b = py "chap1"
    /\ updatedAtTs a = updatedAtTs b
    /\ ((2 < 3)%nat ->
          (updatedAtTs b <= updatedAtTs a)%Z
          /\ (updatedAtTs a = updatedAtTs b -> str_ltb (title a) (title b) = false))
    /\ ((updatedAtTs b < updatedAtTs a)%Z
        \/ (updatedAtTs a = updatedAtTs b /\ str_ltb (title b) (title a) = true) ->
        (2 < 3)%nat).
Proof.
  eexists. eexists. eexists.
  split; [vm_compute; reflexivity|]. split; [vm_compute; reflexivity|].
  split; [vm_compute; reflexivity|]. split; [reflexivity|]. split; [reflexivity|].
  split; [reflexivity|].
  eapply (gather_notes_sorted ascii_only utc_host 0 demo_root); vm_compute; reflexivity.
Defined.

Lemma category_keys_demo :
  exists k, slugify_category_key ascii_only (py "--My  Topic_Area!!") = Ok k
    /\ good_slug k.
Proof.
  apply (proj1 (category_keys_good_unique ascii_only)).
  left. repeat constructor.
Defined.

(** A name that is a lone surrogate and that holds nothing of [a-z0-9] has no
    key: the fallback cannot encode it, and the scan stops there. *)
Lemma slugify_surrogate :
  slugify_category_key ascii_only [0xDCFF] = Raise UnicodeEncodeError
  /\ discover_categories ascii_only surrogate_root = Raise UnicodeEncodeError.
Proof. split; vm_compute; reflexivity. Qed.

Lemma discover_categories_skips_demo :
  exists cats c,
    discover_categories ascii_only demo_root = Ok cats /\ cats !! 0%nat = Some c
    /\ name (category_dir c) = py "TimeSeries"
    /\ category_dir c ∈ demo_root
    /\ is_dir (category_dir c) = true
    /\ startswith (py ".") (name (category_dir c)) = false
    /\ (name (category_dir c) ∉ IGNORED_DIRS)
    /\ exists f, f ∈ iterdir (category_dir c) /\ endswith (py ".html") (file_name f) = true.
Proof.
  eexists. eexists. split; [vm_compute; reflexivity|]. split; [reflexivity|].
  split; [reflexivity|].
  eapply (discover_categories_skips ascii_only demo_root); [vm_compute; reflexivity|].
  left.
Defined.

(** A directory without a single regular file named [*.html] is returned
    when it holds a sub-directory of such a name. *)
Lemma glob_matches_subdirectory :
  exists c,
    discover_categories ascii_only subdir_root = Ok [c]
    /\ name (category_dir c) = py "Notes"
    /\ html_regular_files (category_dir c) = [].
Proof. eexists. split; [vm_compute; reflexivity|]. split; reflexivity. Qed.

Lemma discover_categories_order_demo :
  exists cats a b,
    discover_categories ascii_only demo_root = Ok cats
    /\ cats !! 0%nat = Some a /\ cats !! 1%nat = Some b
    /\ category_key a = py "timeseries" /\ category_key b = py "diffusion"
    /\ (priority b -> priority a)
    /\ (priority a -> priority b ->
        exists ia ib, CATEGORY_ORDER_HINTS !! ia = Some (category_key a)
          /\ CATEGORY_ORDER_HINTS !! ib = Some (category_key b) /\ (ia < ib)%nat)
    /\ (~ priority a -> ~ priority b ->
        str_ltb (py_lower ascii_only (category_name b)) (py_lower ascii_only (category_name a))
        = false).
Proof.
  eexists. eexists. eexists. split; [vm_compute; reflexivity|].
  split; [reflexivity|]. split; [reflexivity|]. split; [reflexivity|]. split; [reflexivity|].
  eapply (discover_categories_order ascii_only demo_root _ 0%nat 1%nat);
    [vm_compute; reflexivity|reflexivity|reflexivity|lia].
Defined.

Lemma prettify_category_name_demo :
  CATEGORY_NAME_OVERRIDES !! py "Diffusion" = Some [0x6269; 0x6563; 0x6A21; 0x578B]
  /\ prettify_category_name ascii_only (py "Diffusion") = [0x6269; 0x6563; 0x6A21; 0x578B]
  /\ CATEGORY_NAME_OVERRIDES !! py "deepLearning_2024-notes" = None
  /\ exists t,
       trimmed (spaced (camel_spaces (py "deepLearning_2024-notes"))) t
       /\ prettify_category_name ascii_only (py "deepLearning_2024-notes")
          = (if is_nil t then py "deepLearning_2024-notes" else t)
       /\ prettify_category_name ascii_only (py "deepLearning_2024-notes")
          = py "deep Learning 2024 notes".
Proof.
  pose proof (prettify_category_name_spec ascii_only) as (Ho & Hn & _).
  split; [reflexivity|]. split; [apply Ho; reflexivity|]. split; [reflexivity|].
  destruct (Hn (py "deepLearning_2024-notes") eq_refl) as (t & Ht & E).
  exists t. split; [exact Ht|]. split; [exact E|]. reflexivity.
Defined.

(** Between an accented lower-case letter and a capital the script puts no
    space, where the words of the specification ask for one. *)
Lemma accented_boundary_gets_no_space :
  prettify_category_name latin (py "caf" ++ [0xE9] ++ py "Bar") = py "caf" ++ [0xE9] ++ py "Bar"
  /\ is_lowercase latin 0xE9 = true
  /\ is_uppercase latin 66 = true
  /\ display_name_cased latin (py "caf" ++ [0xE9] ++ py "Bar")
     = py "caf" ++ [0xE9] ++ py " Bar".
Proof. repeat split; vm_compute; reflexivity. Qed.

Lemma arabic_indic_digits_uncased : digits_uncased arabic_indic.
Proof.
  intros c Hc. unfold py_upper. cbn [map concat app].
  destruct (c <? 128) eqn:E; [|reflexivity].
  unfold isdecimal, decimal_value in Hc. rewrite E in Hc.
  unfold ascii_toupper, is_ascii_lower.
  destruct (is_ascii_digit c) eqn:Hd; [|discriminate].
  unfold is_ascii_digit in Hd. apply andb_true_iff in Hd as [_ Hd%N.leb_le].
  replace (97 <=? c) with false by (symmetry; apply N.leb_gt; lia). reflexivity.
Qed.

Lemma pretty_title_rules_demo :
  digits_uncased arabic_indic
  /\ matches_diffusion arabic_indic (py "Diffusion_" ++ [0x667]) [0x667]
  /\ (length [0x667] <= int_max_str_digits)%nat
  /\ pretty_title arabic_indic (py "Diffusion_" ++ [0x667]) = Ok (py "Diffusion 7")
  /\ pretty_title arabic_indic (py "vAe") = Ok (py "VAE").
Proof.
  assert (Hm : matches_diffusion arabic_indic (py "Diffusion_" ++ [0x667]) [0x667]).
  { exists (py "Diffusion"), [underscore]. split; [reflexivity|]. split.
    - repeat constructor.
    - split; [auto|]. split; [discriminate|repeat constructor]. }
  assert (Hl : (length [0x667] <= int_max_str_digits)%nat)
    by (unfold int_max_str_digits; cbn [length]; lia).
  pose proof (pretty_title_rules arabic_indic arabic_indic_digits_uncased)
    as (Hd & _ & Hv & _).
  split; [exact arabic_indic_digits_uncased|]. split; [exact Hm|]. split; [exact Hl|].
  split; [exact (Hd _ _ Hm Hl)|]. apply Hv. reflexivity.
Defined.

(** A numeral of 4301 digits: [int] refuses it and no title is returned. *)
Lemma pretty_title_long_numeral :
  pretty_title ascii_only (py "diffusion" ++ repeat 49 4301) = Raise ValueError.
Proof.
  apply (pretty_title_diffusion_long ascii_only _ (repeat 49 4301)).
  - exists (py "diffusion"), []. split; [reflexivity|]. split; [repeat constructor|].
    split; [auto|]. split.
    + intros E. apply (f_equal (@length _)) in E. rewrite repeat_length in E. discriminate.
    + apply Forall_forall. intros c Hc. apply list_elem_of_In, repeat_spec in Hc.
      subst c. reflexivity.
  - rewrite repeat_length. unfold int_max_str_digits. lia.
Qed.

(** The same for a chapter. *)
Lemma pretty_title_long_chapter :
  pretty_title ascii_only (py "chapter" ++ repeat 49 4301) = Raise ValueError.
Proof.
  apply (pretty_title_chapter_long ascii_only _ (repeat 49 4301)).
  - exists (py "chapter"). split; [reflexivity|]. split; [left; repeat constructor|].
    split.
    + intros E. apply (f_equal (@length _)) in E. rewrite repeat_length in E. discriminate.
    + apply Forall_forall. intros c Hc. apply list_elem_of_In, repeat_spec in Hc.
      subst c. reflexivity.
  - rewrite repeat_length. unfold int_max_str_digits. lia.
Qed.

Lemma same_dates_noon : same_dates utc_host east_host noon_root.
Proof. apply same_dates_Forall. apply (bool_decide_unpack _). vm_compute. exact I. Qed.

(** Two hosts eight hours apart, and the two ways round of one tree. *)
Lemma gather_notes_deterministic_demo :
  same_dates utc_host east_host noon_root
  /\ (noon_root = reversed noon_root
      \/ (same_tree noon_root (reversed noon_root) /\ distinct_names ascii_only noon_root))
  /\ res_map without_generatedAt (gather_notes ascii_only utc_host 0 noon_root)
     = res_map without_generatedAt
         (gather_notes ascii_only east_host 86400000000 (reversed noon_root)).
Proof.
  assert (H : noon_root = reversed noon_root
              \/ (same_tree noon_root (reversed noon_root)
                  /\ distinct_names ascii_only noon_root)).
  { right. split; [apply same_tree_reversed|].
    split; [apply (bool_decide_unpack _); vm_compute; exact I|].
    repeat (apply Forall_cons_2;
            [cbv beta; apply (bool_decide_unpack _); vm_compute; exact I|]).
    apply Forall_nil_2. }
  split; [exact same_dates_noon|]. split; [exact H|].
  apply (gather_notes_deterministic ascii_only utc_host east_host);
    [exact same_dates_noon|exact H].
Defined.

(** That document: the reversed listing is sorted back. *)
Lemma plain_root_document :
  exists doc,
    gather_notes ascii_only utc_host 0 (reversed plain_root) = Ok doc
    /\ map path (notes doc)
       = [py "Diffusion/vae.html"; py "Diffusion/diffusion-2.html";
          py "TimeSeries/chapter2.html"; py "TimeSeries/chap1.html"].
Proof. eexists. split; vm_compute; reflexivity. Qed.

(** The same tree read in another time zone: the dates of the notes differ. *)
Lemma time_zone_changes_dates :
  exists doc1 doc2,
    gather_notes ascii_only utc_host 0 evening_root = Ok doc1
    /\ gather_notes ascii_only east_host 0 evening_root = Ok doc2
    /\ map updatedAt (notes doc1) = [py "2023-11-14"]
    /\ map updatedAt (notes doc2) = [py "2023-11-15"]
    /\ without_generatedAt doc1 <> without_generatedAt doc2.
Proof.
  eexists. eexists. split; [vm_compute; reflexivity|]. split; [vm_compute; reflexivity|].
  split; [reflexivity|]. split; [reflexivity|]. discriminate.
Qed.

(** The order in which the system lists two names that differ by case only
    decides which of them gets the plain key. *)
Lemma enumeration_order_changes_keys :
  exists doc1 doc2,
    gather_notes ascii_only utc_host 0 case_root = Ok doc1
    /\ gather_notes ascii_only utc_host 0 (rev case_root) = Ok doc2
    /\ map (fun n => (path n, category n)) (notes doc1)
       = [(py "foo/y.html", py "foo-2"); (py "Foo/x.html", py "foo")]
    /\ map (fun n => (path n, category n)) (notes doc2)
       = [(py "foo/y.html", py "foo"); (py "Foo/x.html", py "foo-2")].
Proof. eexists. eexists. repeat split; vm_compute; reflexivity. Qed.

Lemma note_id_good_demo :
  exists cats n,
    discover_categories ascii_only demo_root = Ok cats
    /\ timeseries_category ∈ cats
    /\ build_note ascii_only utc_host timeseries_dir (html "My_Notes v2" 0)
         (category_key timeseries_category) (category_name timeseries_category) = Ok n
    /\ note_id n = py "timeseries-my-notes-v2"
    /\ good_slug (note_id n).
Proof.
  eexists. eexists.
  split; [vm_compute; reflexivity|]. split; [left|].
  split; [vm_compute; reflexivity|]. split; [reflexivity|].
  eapply (proj1 note_id_good ascii_only utc_host demo_root _ timeseries_category
           timeseries_dir (html "My_Notes v2" 0) (category_name timeseries_category)).
  - vm_compute. reflexivity.
  - left.
  - vm_compute. reflexivity.
Defined.
